(** * requests_toolbelt.multipart.decoder

    A shallow embedding of [requests_toolbelt/multipart/decoder.py]: the
    helper [_split_on_find], the class [BodyPart] and the class
    [MultipartDecoder], followed by the properties of the decoder.

    Python [bytes] are lists of [byte]; Python [str] are lists of [ascii]
    (the code points below 256, which is what an HTTP header value holds
    once the transport has decoded it as Latin-1).  A call that can raise
    returns a [result]: [OK] with its value, or [Raise] with the
    exception. *)

From Stdlib Require Import Strings.Byte Strings.Ascii Strings.String.
From Stdlib Require Import ZArith Lia Bool Arith List.
Import ListNotations.

(* ================================================================== *)
(** * Python sequences: the [bytes] and [str] methods the module calls  *)
(* ================================================================== *)

(** Elements with a boolean equality: bytes and characters. *)
Class Eqb (A : Type) : Type := {
  elt_eqb : A -> A -> bool;
  elt_eqb_eq : forall x y, elt_eqb x y = true <-> x = y
}.

#[export] Instance byte_Eqb : Eqb byte :=
  {| elt_eqb := Byte.eqb;
     elt_eqb_eq := fun x y => conj (@Byte.byte_dec_bl x y) (@Byte.byte_dec_lb x y) |}.

#[export] Instance ascii_Eqb : Eqb ascii :=
  {| elt_eqb := Ascii.eqb; elt_eqb_eq := Ascii.eqb_eq |}.

Module PySeq.
Section Ops.
Context {A : Type} `{Eqb A}.

(** [s == t] *)
Fixpoint seq_eqb (s t : list A) : bool :=
  match s, t with
  | [], [] => true
  | a :: s', b :: t' => elt_eqb a b && seq_eqb s' t'
  | _, _ => false
  end.

(** [s.startswith(sub)] *)
Fixpoint startswith (sub s : list A) : bool :=
  match sub, s with
  | [], _ => true
  | _ :: _, [] => false
  | a :: sub', b :: s' => elt_eqb a b && startswith sub' s'
  end.

(** The lowest index at which [sub] occurs in [s], if any. *)
Fixpoint index (sub s : list A) : option nat :=
  if startswith sub s then Some 0
  else match s with
       | [] => None
       | _ :: s' => option_map S (index sub s')
       end.

(** [s.find(sub)]: the lowest index of [sub] in [s], or [-1]. *)
Definition find (sub s : list A) : Z :=
  match index sub s with
  | Some n => Z.of_nat n
  | None => (-1)%Z
  end.

(** [sub in s] *)
Definition contains (sub s : list A) : bool :=
  match index sub s with
  | Some _ => true
  | None => false
  end.

(** A slice bound [i] of a sequence of length [n]: a negative bound counts
    from the end, and every bound is clamped to [0 .. n]. *)
Definition clamp (n : nat) (i : Z) : nat :=
  Z.to_nat (if (i <? 0)%Z then Z.max 0 (i + Z.of_nat n)
            else Z.min i (Z.of_nat n)).

(** [s[:j]] *)
Definition slice_to (s : list A) (j : Z) : list A :=
  firstn (clamp (length s) j) s.

(** [s[i:]] *)
Definition slice_from (s : list A) (i : Z) : list A :=
  skipn (clamp (length s) i) s.

(** [s.split(sep)] for a non-empty [sep]: cut at the successive
    non-overlapping occurrences of [sep], from the left.  Each cut
    consumes at least one element, so [length s] rounds suffice. *)
Fixpoint split_fuel (fuel : nat) (sep s : list A) : list (list A) :=
  match fuel with
  | O => [s]
  | S fuel' =>
      match index sep s with
      | None => [s]
      | Some p => firstn p s :: split_fuel fuel' sep (skipn (p + length sep) s)
      end
  end.

(** Python raises [ValueError] on an empty separator; every call of
    [split] in the module passes a literal or a separator built around
    literal bytes, never an empty one. *)
Definition split (sep s : list A) : list (list A) :=
  split_fuel (length s) sep s.

(** [s.lstrip], [s.rstrip] and [s.strip] for a class [p] of elements. *)
Fixpoint lstrip (p : A -> bool) (s : list A) : list A :=
  match s with
  | [] => []
  | a :: s' => if p a then lstrip p s' else s
  end.

Definition rstrip (p : A -> bool) (s : list A) : list A :=
  rev (lstrip p (rev s)).

Definition strip (p : A -> bool) (s : list A) : list A :=
  rstrip p (lstrip p s).

(** Membership of an element in a set of elements given as a sequence. *)
Definition mem (a : A) (chars : list A) : bool :=
  existsb (elt_eqb a) chars.

(** An occurrence of [sub] in [s] at index [n]. *)
Definition occurs (sub s : list A) (n : nat) : Prop :=
  exists a b, s = a ++ sub ++ b /\ length a = n.

End Ops.
End PySeq.
Import PySeq.

(* ================================================================== *)
(** * Values, exceptions and dictionaries                              *)
(* ================================================================== *)

Abbreviation bytes := (list byte) (only parsing).
Abbreviation str := (list ascii) (only parsing).

(** Literals: [b'...'] and ['...']. *)
Definition blit (s : string) : bytes := list_byte_of_string s.
Definition slit (s : string) : str := list_ascii_of_string s.

Definition CR : byte := x0d.
Definition LF : byte := x0a.
Definition DASH : byte := x2d.
(** [b'\r\n'] and [b'\r\n\r\n'] *)
Definition CRLF : bytes := [CR; LF].
Definition CRLFCRLF : bytes := [CR; LF; CR; LF].
(** [b': '] *)
Definition COLON_SP : bytes := [x3a; x20].

(** The exceptions a decoder can end with: the two the module defines, and
    the built-in ones raised by an attribute that was never set or by the
    codec machinery. *)
Inductive exception : Type :=
| ImproperBodyPartContentException
| NonMultipartContentTypeException
| AttributeError
| LookupError
| UnicodeEncodeError.

Inductive result (T : Type) : Type :=
| OK (value : T)
| Raise (e : exception).
Arguments OK {T} value.
Arguments Raise {T} e.

Definition bind {T U : Type} (r : result T) (k : T -> result U) : result U :=
  match r with
  | OK v => k v
  | Raise e => Raise e
  end.

Notation "x <- r ;; k" := (bind r (fun x => k))
  (at level 61, r at next level, right associativity).

(** A list comprehension whose element expression can raise: elements are
    built from left to right and the first exception ends the construction. *)
Fixpoint mapM {X Y : Type} (f : X -> result Y) (l : list X) : result (list Y) :=
  match l with
  | [] => OK []
  | x :: l' => y <- f x ;; ys <- mapM f l' ;; OK (y :: ys)
  end.

(** [str.strip()] removes white space.  Below code point 256 the white-space
    characters are 9..13, 28..32, 133 and 160. *)
Definition is_space (c : ascii) : bool :=
  let n := nat_of_ascii c in
  ((9 <=? n) && (n <=? 13)) || ((28 <=? n) && (n <=? 32))
  || (n =? 133) || (n =? 160).

(** [str.lower()]: below code point 256 the upper-case letters are A..Z and
    the Latin-1 capitals 192..222 other than the multiplication sign 215. *)
Definition lower_char (c : ascii) : ascii :=
  let n := nat_of_ascii c in
  if ((65 <=? n) && (n <=? 90))
     || ((192 <=? n) && (n <=? 222) && negb (n =? 215))
  then ascii_of_nat (n + 32) else c.

Definition str_lower (s : str) : str := map lower_char s.

(** [bytes.lower()] touches the ASCII letters only. *)
Definition lower_byte (b : byte) : byte :=
  let n := Byte.to_nat b in
  if (65 <=? n) && (n <=? 90)
  then match Byte.of_nat (n + 32) with Some b' => b' | None => b end
  else b.

Definition bytes_lower (s : bytes) : bytes := map lower_byte s.

(** The double-quote character, the argument of [value.strip(...)]. *)
Definition DQUOTE : ascii := ascii_of_nat 34.

(** A Python [dict] keyed by [bytes], in insertion order: [d[k] = v]
    replaces the value of an existing key in place and appends a new key. *)
Fixpoint dict_set {V : Type} (d : list (bytes * V)) (k : bytes) (v : V)
  : list (bytes * V) :=
  match d with
  | [] => [(k, v)]
  | (k', v') :: d' =>
      if seq_eqb k' k then (k', v) :: d' else (k', v') :: dict_set d' k v
  end.

Fixpoint dict_get {V : Type} (d : list (bytes * V)) (k : bytes) : option V :=
  match d with
  | [] => None
  | (k', v') :: d' => if seq_eqb k' k then Some v' else dict_get d' k
  end.

(** [requests.structures.CaseInsensitiveDict]: [_store] maps the lower-cased
    key to the pair of the key as last set and its value. *)
Record CaseInsensitiveDict : Type := {
  _store : list (bytes * (bytes * bytes))
}.

Definition cid_setitem (c : CaseInsensitiveDict) (key value : bytes)
  : CaseInsensitiveDict :=
  {| _store := dict_set (_store c) (bytes_lower key) (key, value) |}.

Definition cid_getitem (c : CaseInsensitiveDict) (key : bytes) : option bytes :=
  option_map snd (dict_get (_store c) (bytes_lower key)).

(** [CaseInsensitiveDict(data)]: every item of [data] is set in turn. *)
Definition CaseInsensitiveDict_init (data : list (bytes * bytes))
  : CaseInsensitiveDict :=
  fold_left (fun c kv => cid_setitem c (fst kv) (snd kv)) data {| _store := [] |}.

(* ================================================================== *)
(** * decoder.py                                                       *)
(* ================================================================== *)

(** [_split_on_find(content, bound)] *)
Definition _split_on_find {A : Type} `{Eqb A} (content bound : list A)
  : list A * list A :=
  let point := find bound content in
  (slice_to content point,
   slice_from content (point + Z.of_nat (length bound))).

(** ** class BodyPart *)

Record BodyPart : Type := {
  content : bytes;
  headers : CaseInsensitiveDict;
  encoding : str
}.

(** One round of the loop over the header lines: a line holding [b': '] is
    cut at its first occurrence and stored, any other line is passed over. *)
Definition add_header_line (headers : list (bytes * bytes)) (line : bytes)
  : list (bytes * bytes) :=
  if contains COLON_SP line then
    let '(h_key, h_value) := _split_on_find line COLON_SP in
    dict_set headers h_key h_value
  else headers.

(** The [headers] dict built from the header section [first]. *)
Definition header_dict (first : bytes) : list (bytes * bytes) :=
  if negb (seq_eqb first []) then
    fold_left add_header_line (split CRLF first) []
  else [].

(** [BodyPart.__init__(self, content, encoding)] *)
Definition BodyPart_init (content : bytes) (encoding : str) : result BodyPart :=
  if contains CRLFCRLF content then
    let '(first, body) := _split_on_find content CRLFCRLF in
    OK {| content := body;
          headers := CaseInsensitiveDict_init (header_dict first);
          encoding := encoding |}
  else if seq_eqb CRLF (slice_to content 2) then
    OK {| content := slice_from content 2;
          headers := CaseInsensitiveDict_init [];
          encoding := encoding |}
  else Raise ImproperBodyPartContentException.

(** The objects a [BodyPart] is compared with. *)
Inductive pyobj : Type :=
| PyBodyPart (p : BodyPart)
| PyBytes (b : bytes)
| PyStr (s : str)
| PyNone.

(** [other.content]; [None] stands for [AttributeError]. *)
Definition attr_content (other : pyobj) : option bytes :=
  match other with
  | PyBodyPart p => Some (content p)
  | _ => None
  end.

(** [b == other] for a [bytes] value [b]: only [bytes] compare equal. *)
Definition bytes_eq_obj (b : bytes) (other : pyobj) : bool :=
  match other with
  | PyBytes b' => seq_eqb b b'
  | _ => false
  end.

(** [BodyPart.__eq__(self, other)] *)
Definition BodyPart_eq (self : BodyPart) (other : pyobj) : bool :=
  match attr_content other with
  | Some c => seq_eqb (content self) c
  | None => bytes_eq_obj (content self) other
  end.

(** ** class MultipartDecoder *)

(** The attribute [boundary] is [None] while it has not been set. *)
Record MultipartDecoder : Type := {
  md_content : bytes;
  md_content_type : str;
  md_encoding : str;
  parts : list BodyPart;
  boundary : option bytes
}.

(** [MultipartDecoder._fix_last_part(part, end_marker)] *)
Definition _fix_last_part (part end_marker : bytes) : bytes :=
  if contains end_marker part then slice_to part (find end_marker part)
  else part.

(** The separator [b''.join((b'--', boundary, b'\r\n'))] on which the body
    is split, and the marker [b''.join((b'\r\n--', boundary, b'--'))] cut
    from a part. *)
Definition part_separator (boundary : bytes) : bytes :=
  concat [[DASH; DASH]; boundary; CRLF].

Definition end_marker (boundary : bytes) : bytes :=
  concat [[CR; LF; DASH; DASH]; boundary; [DASH; DASH]].

(** The condition of the comprehension: [x != b'' and x != b'\r\n']. *)
Definition kept (x : bytes) : bool :=
  negb (seq_eqb x []) && negb (seq_eqb x CRLF).

(** The element expression of the comprehension:
    [BodyPart(MultipartDecoder._fix_last_part(x[:-2], end_marker), encoding)]. *)
Definition body_part_of (boundary : bytes) (encoding : str) (x : bytes)
  : result BodyPart :=
  BodyPart_init (_fix_last_part (slice_to x (-2)) (end_marker boundary))
                encoding.

(** [MultipartDecoder._parse_body]: [boundary] is [None] while the
    attribute [self.boundary] has not been set, and reading it then raises
    [AttributeError]. *)
Definition _parse_body (content : bytes) (boundary : option bytes)
  (encoding : str) : result (list BodyPart) :=
  match boundary with
  | None => Raise AttributeError
  | Some boundary =>
      mapM (body_part_of boundary encoding)
           (filter kept (split (part_separator boundary) content))
  end.

Section Decoder.

(** [encode_with] is imported from [multipart/encoder.py], which is not
    among the sources at hand: the decoder is parametrised by it.  It takes
    the string and the name of the codec, and returns the encoded bytes or
    the exception of the codec machinery. *)
Variable encode_with : str -> str -> result bytes.

(** The loop of [_find_boundary] over [ct_info[1:]], threading the
    attribute [self.boundary]. *)
Fixpoint scan_attributes (items : list str) (encoding : str)
  (boundary : option bytes) : result (option bytes) :=
  match items with
  | [] => OK boundary
  | item :: rest =>
      let '(attr, value) := _split_on_find item (slit "=") in
      if seq_eqb (str_lower attr) (slit "boundary") then
        b <- encode_with (strip (fun c => mem c [DQUOTE]) value) encoding ;;
        scan_attributes rest encoding (Some b)
      else scan_attributes rest encoding boundary
  end.

(** [ct_info = tuple(x.strip() for x in self.content_type.split(';'))] *)
Definition ct_info (content_type : str) : list str :=
  map (strip is_space) (split (slit ";") content_type).

(** [MultipartDecoder._find_boundary]; the result is the attribute
    [self.boundary] after the call, [None] when it was never set. *)
Definition _find_boundary (content_type encoding : str)
  : result (option bytes) :=
  let mimetype := hd [] (ct_info content_type) in
  if negb (seq_eqb (hd [] (split (slit "/") mimetype)) (slit "multipart")) then
    Raise NonMultipartContentTypeException
  else
    scan_attributes (tl (ct_info content_type)) encoding None.

(** [MultipartDecoder.__init__(self, content, content_type, encoding)] *)
Definition MultipartDecoder_init (content : bytes) (content_type encoding : str)
  : result MultipartDecoder :=
  b <- _find_boundary content_type encoding ;;
  ps <- _parse_body content b encoding ;;
  OK {| md_content := content;
        md_content_type := content_type;
        md_encoding := encoding;
        parts := ps;
        boundary := b |}.

(** [MultipartDecoder.from_response(response, encoding)]: [response] is
    given by its [content] and by [response.headers.get('content-type',
    None)]; calling [split] on [None] raises [AttributeError]. *)
Definition from_response (response_content : bytes)
  (response_content_type : option str) (encoding : str)
  : result MultipartDecoder :=
  match response_content_type with
  | None => Raise AttributeError
  | Some content_type =>
      MultipartDecoder_init response_content content_type encoding
  end.

End Decoder.

(** The UTF-8 encoding of a code point below 256: one byte below 128, two
    bytes from there on. *)
Definition encode_utf8_char (c : ascii) : bytes :=
  let n := nat_of_ascii c in
  if n <? 128 then [byte_of_ascii c]
  else match Byte.of_nat (192 + n / 64), Byte.of_nat (128 + n mod 64) with
       | Some hi, Some lo => [hi; lo]
       | _, _ => []
       end.

(** Modelled from the spec: [encode_with] of [multipart/encoder.py], absent
    from the sources; the spec has the boundary value "encoded to bytes
    using the configured charset".  The model knows the codecs [utf-8],
    [latin-1] and [ascii] on code points below 256 and answers [LookupError]
    for any other name.  It serves where a concrete decoder is run; the
    theorems hold for every [encode_with]. *)
Definition encode_with_model (s : str) (encoding : str) : result bytes :=
  if seq_eqb encoding (slit "utf-8") then OK (flat_map encode_utf8_char s)
  else if seq_eqb encoding (slit "latin-1") then OK (map byte_of_ascii s)
  else if seq_eqb encoding (slit "ascii") then
    if forallb (fun c => nat_of_ascii c <? 128) s
    then OK (map byte_of_ascii s) else Raise UnicodeEncodeError
  else Raise LookupError.

Definition UTF8 : str := slit "utf-8".

(* ================================================================== *)
(** * Notions of the specification                                     *)
(* ================================================================== *)

(** The text of [s] before the first occurrence of [sep], or all of [s]
    when [sep] does not occur. *)
Definition text_before {A : Type} `{Eqb A} (sep s : list A) : list A :=
  match index sep s with
  | Some p => firstn p s
  | None => s
  end.

(** The top-level type of a content-type string: the text before [/] in
    its first [;]-separated token, the token being taken without the white
    space around it. *)
Definition top_level_type (content_type : str) : str :=
  text_before (slit "/")
    (strip is_space (text_before (slit ";") content_type)).

(** A [key=value] attribute: [item] is [key], the sign [=] and [value], and
    [key] holds no [=]. *)
Definition key_value (item key value : str) : Prop :=
  item = key ++ slit "=" ++ value /\ (forall m, ~ occurs (slit "=") key m).

(** The payload that frames [fragments] with the boundary [b]: before
    each fragment the separator line [--b CR LF], after each fragment
    CR LF. *)
Definition framed (b : bytes) (fragments : list bytes) : bytes :=
  flat_map (fun f => part_separator b ++ f ++ CRLF) fragments.

(** The closing line [--b-- CR LF]. *)
Definition closing_line (b : bytes) : bytes :=
  [DASH; DASH] ++ b ++ [DASH; DASH] ++ CRLF.

(** A header line that says nothing of the name [key]: it holds no
    [b': '], or the name before its first [b': '] differs from [key] even
    up to the case of the ASCII letters. *)
Definition silent_on (key line : bytes) : Prop :=
  contains COLON_SP line = false \/
  bytes_lower (fst (_split_on_find line COLON_SP)) <> bytes_lower key.

(** An item of a [dict] that is of another name than [key] up to case, or
    is the item [(k, v)] itself. *)
Definition harmless_to (key k v : bytes) (kv : bytes * bytes) : Prop :=
  bytes_lower (fst kv) <> bytes_lower key \/ kv = (k, v).

(* ================================================================== *)
(** * Facts about the sequence operations                              *)
(* ================================================================== *)

Section SeqFacts.
Context {A : Type} `{Eqb A}.
Implicit Types s t sub sep : list A.

Lemma seq_eqb_eq s t : seq_eqb s t = true <-> s = t.
Proof.
  revert t; induction s as [|a s IH]; intros [|b t]; simpl;
    try (split; [discriminate | congruence]); try tauto.
  rewrite andb_true_iff, elt_eqb_eq, IH.
  split; [intros [-> ->]; reflexivity | intros [= -> ->]; auto].
Qed.

Lemma seq_eqb_refl s : seq_eqb s s = true.
Proof. apply seq_eqb_eq; reflexivity. Qed.

Lemma seq_eqb_neq s t : seq_eqb s t = false <-> s <> t.
Proof.
  rewrite <- seq_eqb_eq. destruct (seq_eqb s t); split; congruence.
Qed.

Lemma startswith_iff sub s : startswith sub s = true <-> exists t, s = sub ++ t.
Proof.
  revert s; induction sub as [|a sub IH]; intros s; simpl.
  - split; eauto.
  - destruct s as [|b s].
    + split; [discriminate | intros [t Ht]; discriminate].
    + rewrite andb_true_iff, elt_eqb_eq, IH. split.
      * intros [-> [t ->]]. eauto.
      * intros [t [= -> ->]]. eauto.
Qed.

Lemma occurs_0 sub s : occurs sub s 0 <-> startswith sub s = true.
Proof.
  rewrite startswith_iff. unfold occurs. split.
  - intros (a & b & -> & Ha). apply length_zero_iff_nil in Ha. subst.
    exists b. reflexivity.
  - intros [t ->]. exists [], t. auto.
Qed.

Lemma occurs_S sub c s n : occurs sub (c :: s) (S n) <-> occurs sub s n.
Proof.
  unfold occurs. split.
  - intros (a & b & E & Ha). destruct a as [|c' a]; [discriminate|].
    simpl in *. injection E as -> ->. injection Ha as Ha. eauto.
  - intros (a & b & -> & Ha). exists (c :: a), b. simpl. auto.
Qed.

Lemma occurs_nil_S sub n : ~ occurs sub [] (S n).
Proof.
  intros (a & b & E & Ha). destruct a; [discriminate Ha | discriminate E].
Qed.

(** [index] finds an occurrence, and the first one. *)
Lemma index_occurs sub s n : index sub s = Some n -> occurs sub s n.
Proof.
  revert n; induction s as [|c s IH]; intros n; simpl;
    destruct (startswith sub _) eqn:E;
    try (intros [= <-]; apply occurs_0; exact E); try discriminate.
  destruct (index sub s) as [k|]; simpl; [|discriminate].
  intros [= <-]. apply occurs_S. auto.
Qed.

Lemma index_first sub s n m : index sub s = Some n -> occurs sub s m -> n <= m.
Proof.
  revert n m; induction s as [|c s IH]; intros n m; simpl;
    destruct (startswith sub _) eqn:E;
    try (intros [= <-] _; lia); try discriminate.
  destruct (index sub s) as [k|]; simpl; [|discriminate].
  intros [= <-] Hm. destruct m as [|m].
  - apply occurs_0 in Hm. congruence.
  - apply occurs_S in Hm. specialize (IH k m eq_refl Hm). lia.
Qed.

Lemma index_None_occurs sub s m : index sub s = None -> ~ occurs sub s m.
Proof.
  revert m; induction s as [|c s IH]; intros m; simpl;
    destruct (startswith sub _) eqn:E; try discriminate.
  - intros _ Hm. destruct m; [apply occurs_0 in Hm; congruence|].
    exact (occurs_nil_S _ _ Hm).
  - destruct (index sub s) as [k|]; simpl; [discriminate|].
    intros _ Hm. destruct m as [|m].
    + apply occurs_0 in Hm. congruence.
    + apply occurs_S in Hm. exact (IH m eq_refl Hm).
Qed.

Lemma index_Some sub s n :
  index sub s = Some n <->
  occurs sub s n /\ (forall m, occurs sub s m -> n <= m).
Proof.
  split.
  - intros E. split; [exact (index_occurs _ _ _ E)|].
    intros m. exact (index_first _ _ _ m E).
  - intros [Ho Hmin]. destruct (index sub s) as [k|] eqn:E.
    + f_equal. pose proof (index_first _ _ _ _ E Ho).
      pose proof (Hmin k (index_occurs _ _ _ E)). lia.
    + exfalso. exact (index_None_occurs _ _ _ E Ho).
Qed.

Lemma index_None sub s : index sub s = None <-> forall m, ~ occurs sub s m.
Proof.
  split.
  - intros E m. exact (index_None_occurs _ _ m E).
  - intros Hn. destruct (index sub s) as [k|] eqn:E; [|reflexivity].
    exfalso. exact (Hn k (index_occurs _ _ _ E)).
Qed.

Lemma occurs_bound sub s n : occurs sub s n -> n + length sub <= length s.
Proof.
  intros (a & b & -> & <-). rewrite !length_app. lia.
Qed.

(** ** Slices *)

Lemma clamp_nat n k : clamp n (Z.of_nat k) = Nat.min k n.
Proof.
  unfold clamp. destruct (Z.ltb_spec (Z.of_nat k) 0); lia.
Qed.

Lemma slice_to_nat s k : slice_to s (Z.of_nat k) = firstn k s.
Proof.
  unfold slice_to. rewrite clamp_nat.
  destruct (Nat.le_ge_cases k (length s)).
  - rewrite Nat.min_l by assumption. reflexivity.
  - rewrite Nat.min_r, firstn_all, firstn_all2 by assumption. reflexivity.
Qed.

Lemma slice_from_nat s k : slice_from s (Z.of_nat k) = skipn k s.
Proof.
  unfold slice_from. rewrite clamp_nat.
  destruct (Nat.le_ge_cases k (length s)).
  - rewrite Nat.min_l by assumption. reflexivity.
  - rewrite Nat.min_r, skipn_all, skipn_all2 by assumption. reflexivity.
Qed.

(** [s[:-2]] drops the last two elements, whatever they are, and leaves
    nothing of a sequence shorter than two. *)
Lemma slice_to_m2 s : slice_to s (-2) = firstn (length s - 2) s.
Proof.
  unfold slice_to, clamp. change (-2 <? 0)%Z with true. cbv iota.
  f_equal. lia.
Qed.

Lemma slice_to_m2_app s a b : slice_to (s ++ [a; b]) (-2) = s.
Proof.
  rewrite slice_to_m2, length_app. simpl.
  replace (length s + 2 - 2) with (length s) by lia.
  rewrite firstn_app, Nat.sub_diag, firstn_all. simpl. apply app_nil_r.
Qed.

(** ** [_split_on_find] at an occurrence *)

Lemma find_index sub s n : index sub s = Some n -> find sub s = Z.of_nat n.
Proof. unfold find. intros ->. reflexivity. Qed.

Lemma contains_index sub s :
  contains sub s = true <-> exists n, index sub s = Some n.
Proof.
  unfold contains. destruct (index sub s); split; eauto; try discriminate.
  intros [n Hn]. discriminate.
Qed.

Lemma contains_false sub s :
  contains sub s = false <-> forall m, ~ occurs sub s m.
Proof.
  rewrite <- index_None. unfold contains.
  destruct (index sub s); split; congruence.
Qed.

Lemma contains_true sub s : contains sub s = true <-> exists m, occurs sub s m.
Proof.
  rewrite contains_index. split.
  - intros [n Hn]. exists n. exact (index_occurs _ _ _ Hn).
  - intros [m Hm]. destruct (index sub s) as [k|] eqn:E; [eauto|].
    exfalso. exact (index_None_occurs _ _ _ E Hm).
Qed.

Lemma _split_on_find_index content bound n :
  index bound content = Some n ->
  _split_on_find content bound =
  (firstn n content, skipn (n + length bound) content).
Proof.
  intros E. unfold _split_on_find. rewrite (find_index _ _ _ E).
  rewrite slice_to_nat, <- Nat2Z.inj_add, slice_from_nat. reflexivity.
Qed.

(** When [h ++ bound ++ c] has no occurrence of [bound] before the one
    displayed, [_split_on_find] returns [h] and [c]. *)
Lemma index_app_first h bound c :
  (forall m, occurs bound (h ++ bound ++ c) m -> length h <= m) ->
  index bound (h ++ bound ++ c) = Some (length h).
Proof.
  intros Hmin. apply index_Some. split; [|assumption].
  exists h, c. auto.
Qed.

Lemma _split_on_find_app h bound c :
  (forall m, occurs bound (h ++ bound ++ c) m -> length h <= m) ->
  _split_on_find (h ++ bound ++ c) bound = (h, c).
Proof.
  intros Hmin. rewrite (_split_on_find_index _ _ _ (index_app_first _ _ _ Hmin)).
  rewrite firstn_app, Nat.sub_diag, firstn_all. simpl. rewrite app_nil_r.
  rewrite skipn_app, skipn_all2 by lia.
  replace (length h + length bound - length h) with (length bound) by lia.
  rewrite skipn_app, skipn_all, Nat.sub_diag. reflexivity.
Qed.

(** ** [split] *)

Lemma index_nil_sep sep : sep <> [] -> index sep [] = None.
Proof. destruct sep; [congruence | reflexivity]. Qed.

(** Any amount of fuel from [length s] on gives the same result. *)
Lemma split_fuel_stable sep : sep <> [] ->
  forall f1 f2 s, length s <= f1 -> length s <= f2 ->
  split_fuel f1 sep s = split_fuel f2 sep s.
Proof.
  intros Hsep. induction f1 as [|f1 IH]; intros f2 s H1 H2.
  - destruct s; [|simpl in H1; lia].
    destruct f2; cbn [split_fuel]; [reflexivity|].
    rewrite index_nil_sep by assumption. reflexivity.
  - destruct f2 as [|f2].
    + destruct s; [|simpl in H2; lia]. cbn [split_fuel].
      rewrite index_nil_sep by assumption. reflexivity.
    + cbn [split_fuel]. destruct (index sep s) as [p|] eqn:E; [|reflexivity].
      f_equal. pose proof (occurs_bound _ _ _ (index_occurs _ _ _ E)) as Hb.
      assert (0 < length sep) by (destruct sep; [congruence | simpl; lia]).
      apply IH; rewrite length_skipn; lia.
Qed.

Lemma split_fuel_enough sep s fuel :
  sep <> [] -> length s <= fuel -> split_fuel fuel sep s = split sep s.
Proof.
  intros Hsep Hf. unfold split. apply split_fuel_stable; auto.
Qed.

(** The equation of [split]: nothing to cut, or a first piece and the
    split of what follows the first separator. *)
Lemma split_eq sep s : sep <> [] ->
  split sep s =
  match index sep s with
  | None => [s]
  | Some p => firstn p s :: split sep (skipn (p + length sep) s)
  end.
Proof.
  intros Hsep. unfold split at 1. destruct s as [|c s].
  - cbn [length split_fuel]. rewrite index_nil_sep by assumption. reflexivity.
  - cbn [length split_fuel]. destruct (index sep (c :: s)) as [p|] eqn:E;
      [|reflexivity].
    f_equal. apply split_fuel_enough; [assumption|].
    pose proof (occurs_bound _ _ _ (index_occurs _ _ _ E)) as Hb.
    assert (0 < length sep) by (destruct sep; [congruence | simpl; lia]).
    rewrite length_skipn. cbn [length] in *. lia.
Qed.

Lemma split_not_nil sep s : sep <> [] -> split sep s <> [].
Proof.
  intros Hsep. rewrite split_eq by assumption.
  destruct (index sep s); discriminate.
Qed.

(** ** Occurrences in a concatenation *)

Lemma occurs_app_l sub s t m : occurs sub s m -> occurs sub (s ++ t) m.
Proof.
  intros (a & b & -> & Ha). exists a, (b ++ t). split; [|assumption].
  rewrite <- !app_assoc. reflexivity.
Qed.

Lemma occurs_app_r sub s t m : occurs sub t m -> occurs sub (s ++ t) (length s + m).
Proof.
  intros (a & b & -> & Ha). exists (s ++ a), b. split.
  - rewrite <- app_assoc. reflexivity.
  - rewrite length_app. lia.
Qed.

Lemma occurs_app_inv sub s t m :
  occurs sub (s ++ t) m -> m + length sub <= length s -> occurs sub s m.
Proof.
  intros (a & b & E & Ha) Hle.
  rewrite app_assoc in E. apply app_eq_app in E.
  destruct E as [l [[E1 E2] | [E1 E2]]].
  - exists a, l. split; [|assumption]. rewrite E1, <- app_assoc. reflexivity.
  - assert (l = []).
    { apply (f_equal (@length A)) in E1. rewrite !length_app in E1.
      destruct l; [reflexivity | simpl in E1; lia]. }
    subst l. rewrite app_nil_r in E1. exists a, []. split; [|assumption].
    rewrite app_nil_r. auto.
Qed.

(** When every occurrence of [sep] in [s ++ t] lies inside [s], splitting
    [s ++ t] cuts where splitting [s] cuts, and [t] ends the last piece. *)
Lemma split_app_tail sep t : sep <> [] ->
  forall s,
  (forall m, occurs sep (s ++ t) m -> m + length sep <= length s) ->
  exists init l a,
    split sep s = init ++ [l] /\
    split sep (s ++ t) = init ++ [l ++ t] /\
    s = a ++ l.
Proof.
  intros Hsep s. induction s as [s IH] using (induction_ltof1 _ (@length A)).
  unfold ltof in IH. intros Hin.
  rewrite (split_eq sep s), (split_eq sep (s ++ t)) by assumption.
  destruct (index sep s) as [p|] eqn:E.
  - pose proof (index_occurs _ _ _ E) as Ho.
    pose proof (occurs_bound _ _ _ Ho) as Hb.
    assert (0 < length sep) by (destruct sep; [congruence | simpl; lia]).
    assert (E' : index sep (s ++ t) = Some p).
    { apply index_Some. split; [apply occurs_app_l; assumption|].
      intros m Hm. apply (index_first _ _ _ _ E).
      apply occurs_app_inv with t; auto. }
    rewrite E'.
    rewrite firstn_app, skipn_app.
    replace (p - length s) with 0 by lia.
    replace (p + length sep - length s) with 0 by lia. simpl.
    rewrite app_nil_r.
    destruct (IH (skipn (p + length sep) s)) as (init & l & a & E1 & E2 & E3).
    + rewrite length_skipn. lia.
    + intros m Hm. rewrite length_skipn.
      apply (occurs_app_r _ (firstn (p + length sep) s)) in Hm.
      rewrite app_assoc, firstn_skipn in Hm.
      apply Hin in Hm. rewrite length_firstn in Hm. lia.
    + exists (firstn p s :: init), l, (firstn (p + length sep) s ++ a).
      rewrite E1, E2. repeat split.
      rewrite <- app_assoc, <- E3, firstn_skipn. reflexivity.
  - assert (E' : index sep (s ++ t) = None).
    { apply index_None. intros m Hm.
      apply (index_None_occurs _ _ m E).
      apply occurs_app_inv with t; auto. }
    rewrite E'. exists [], s, []. auto.
Qed.

End SeqFacts.

(* ================================================================== *)
(** * Facts about the error monad and [BodyPart]                       *)
(* ================================================================== *)

Lemma mapM_app {X Y : Type} (f : X -> result Y) (l1 l2 : list X) :
  mapM f (l1 ++ l2) =
  (ps1 <- mapM f l1 ;; ps2 <- mapM f l2 ;; OK (ps1 ++ ps2)).
Proof.
  induction l1 as [|x l1 IH]; simpl.
  - destruct (mapM f l2); reflexivity.
  - destruct (f x) as [y|e]; simpl; [|reflexivity].
    rewrite IH. destruct (mapM f l1) as [ys|e]; simpl; [|reflexivity].
    destruct (mapM f l2); reflexivity.
Qed.

Lemma mapM_length {X Y : Type} (f : X -> result Y) (l : list X) (ys : list Y) :
  mapM f l = OK ys -> length ys = length l.
Proof.
  revert ys; induction l as [|x l IH]; simpl; intros ys.
  - intros [= <-]. reflexivity.
  - destruct (f x) as [y|e]; simpl; [|discriminate].
    destruct (mapM f l) as [zs|e]; simpl; [|discriminate].
    intros [= <-]. simpl. f_equal. apply IH. reflexivity.
Qed.

(** When [f] can raise only [e], one failing element makes the whole
    comprehension raise [e]. *)
Lemma mapM_raise_in {X Y : Type} (f : X -> result Y) (e : exception)
  (l : list X) (x : X) :
  (forall z e', f z = Raise e' -> e' = e) ->
  In x l -> f x = Raise e -> mapM f l = Raise e.
Proof.
  intros Hf. induction l as [|z l IH]; simpl; [tauto|].
  intros [-> | Hin] Hx.
  - rewrite Hx. reflexivity.
  - destruct (f z) as [y|e'] eqn:Ez; simpl.
    + rewrite (IH Hin Hx). reflexivity.
    + f_equal. eauto.
Qed.

Lemma mapM_map {X Y Z : Type} (g : X -> Y) (f : Y -> result Z) (l : list X) :
  mapM f (map g l) = mapM (fun x => f (g x)) l.
Proof.
  induction l as [|x l IH]; simpl; [reflexivity|]. rewrite IH. reflexivity.
Qed.

(** The test [b'\r\n' == content[:2]]. *)
Lemma leading_crlf (c : bytes) :
  seq_eqb CRLF (slice_to c 2) = true <-> exists t, c = CRLF ++ t.
Proof.
  change 2%Z with (Z.of_nat 2). rewrite slice_to_nat, seq_eqb_eq. split.
  - intros E. exists (skipn 2 c). rewrite E. symmetry. apply firstn_skipn.
  - intros [t ->]. reflexivity.
Qed.

(** [BodyPart] raises nothing but [ImproperBodyPartContentException]. *)
Lemma BodyPart_init_raise (c : bytes) (enc : str) (e : exception) :
  BodyPart_init c enc = Raise e -> e = ImproperBodyPartContentException.
Proof.
  unfold BodyPart_init. destruct (contains CRLFCRLF c).
  - destruct (_split_on_find c CRLFCRLF). discriminate.
  - destruct (seq_eqb CRLF (slice_to c 2)); [discriminate|].
    intros [= <-]. reflexivity.
Qed.

Lemma BodyPart_init_improper (c : bytes) (enc : str) :
  (forall m, ~ occurs CRLFCRLF c m) -> (forall t, c <> CRLF ++ t) ->
  BodyPart_init c enc = Raise ImproperBodyPartContentException.
Proof.
  intros H1 H2. unfold BodyPart_init.
  apply contains_false in H1. rewrite H1.
  destruct (seq_eqb CRLF (slice_to c 2)) eqn:E; [|reflexivity].
  apply leading_crlf in E. destruct E as [t ->]. exfalso. exact (H2 t eq_refl).
Qed.

(** The header lines that do not hold [b': '] play no part in the dict. *)
Lemma fold_add_header_line_filter (lines : list bytes) (h : list (bytes * bytes)) :
  fold_left add_header_line lines h =
  fold_left (fun d line => dict_set d (fst (_split_on_find line COLON_SP))
                                      (snd (_split_on_find line COLON_SP)))
            (filter (contains COLON_SP) lines) h.
Proof.
  revert h; induction lines as [|line lines IH]; intros h; simpl;
    [reflexivity|].
  unfold add_header_line at 2.
  destruct (contains COLON_SP line); simpl; rewrite IH; [|reflexivity].
  destruct (_split_on_find line COLON_SP). reflexivity.
Qed.

(* ================================================================== *)
(** * [BodyPart]: equality, shape of a part, header lines              *)
(* ================================================================== *)

(** C8. Two [BodyPart]s are equal exactly when their raw content bytes are
    equal, whatever their headers and encodings; a [BodyPart] equals a raw
    byte value exactly when its raw content is that value. *)
Theorem BodyPart_eq_compares_content (p q : BodyPart) (b : bytes) :
  (BodyPart_eq p (PyBodyPart q) = true <-> content p = content q) /\
  (BodyPart_eq p (PyBytes b) = true <-> content p = b).
Proof.
  split; unfold BodyPart_eq; simpl; apply seq_eqb_eq.
Qed.

(** C4. A fragment that contains CR LF CR LF gives a [BodyPart] whose
    headers are read from the prefix before the first occurrence and whose
    content is the suffix after it; a fragment without that separator which
    begins with CR LF gives a [BodyPart] whose content is everything after
    the leading CR LF and whose header map is empty. *)
Theorem BodyPart_init_shape (fragment : bytes) (enc : str) :
  (forall h c,
     fragment = h ++ CRLFCRLF ++ c ->
     (forall m, occurs CRLFCRLF fragment m -> length h <= m) ->
     BodyPart_init fragment enc =
     OK {| content := c;
           headers := CaseInsensitiveDict_init (header_dict h);
           encoding := enc |}) /\
  (forall c,
     (forall m, ~ occurs CRLFCRLF fragment m) ->
     fragment = CRLF ++ c ->
     BodyPart_init fragment enc =
     OK {| content := c; headers := {| _store := [] |}; encoding := enc |}).
Proof.
  split.
  - intros h c -> Hfirst. unfold BodyPart_init.
    assert (Hc : contains CRLFCRLF (h ++ CRLFCRLF ++ c) = true).
    { apply contains_true. exists (length h), h, c. auto. }
    rewrite Hc, _split_on_find_app by assumption. reflexivity.
  - intros c Hno ->. unfold BodyPart_init.
    apply contains_false in Hno. rewrite Hno.
    assert (E : seq_eqb CRLF (slice_to (CRLF ++ c) 2) = true)
      by (apply leading_crlf; eauto).
    rewrite E. change 2%Z with (Z.of_nat 2). rewrite slice_from_nat.
    reflexivity.
Qed.

Lemma BodyPart_init_shape_witness :
  BodyPart_init (blit "A: b" ++ CRLFCRLF ++ blit "xyz") UTF8 =
    OK {| content := blit "xyz";
          headers := CaseInsensitiveDict_init (header_dict (blit "A: b"));
          encoding := UTF8 |} /\
  BodyPart_init (CRLF ++ blit "xyz") UTF8 =
    OK {| content := blit "xyz"; headers := {| _store := [] |};
          encoding := UTF8 |}.
Proof.
  split.
  - apply (BodyPart_init_shape (blit "A: b" ++ CRLFCRLF ++ blit "xyz") UTF8).
    + reflexivity.
    + intros m. apply index_first. reflexivity.
  - apply (BodyPart_init_shape (CRLF ++ blit "xyz") UTF8).
    + intros m. apply index_None_occurs. reflexivity.
    + reflexivity.
Defined.

(** C10. When the header block of a fragment is parsed, the part is built
    whatever the header lines are, and its header map is the one built from
    the lines that hold [b': '] alone: a line without it adds no entry and
    raises nothing, and a line with it is cut at its first occurrence into
    a name and a value. *)
Theorem header_line_without_separator_ignored (fragment : bytes) (enc : str) :
  (exists m, occurs CRLFCRLF fragment m) ->
  (exists p,
     BodyPart_init fragment enc = OK p /\
     headers p =
     CaseInsensitiveDict_init
       (fold_left
          (fun d line => dict_set d (fst (_split_on_find line COLON_SP))
                                    (snd (_split_on_find line COLON_SP)))
          (filter (contains COLON_SP)
                  (split CRLF (fst (_split_on_find fragment CRLFCRLF))))
          [])) /\
  (forall d line,
     (forall m, ~ occurs COLON_SP line m) -> add_header_line d line = d) /\
  (forall d k v,
     (forall m, occurs COLON_SP (k ++ COLON_SP ++ v) m -> length k <= m) ->
     add_header_line d (k ++ COLON_SP ++ v) = dict_set d k v).
Proof.
  intros Hc. apply contains_true in Hc. split; [|split].
  - unfold BodyPart_init. rewrite Hc.
    destruct (_split_on_find fragment CRLFCRLF) as [first body]. simpl.
    eexists. split; [reflexivity|]. simpl. f_equal.
    unfold header_dict. destruct (seq_eqb first []) eqn:E; simpl.
    + apply seq_eqb_eq in E. subst first. reflexivity.
    + apply fold_add_header_line_filter.
  - intros d line Hno. unfold add_header_line.
    apply contains_false in Hno. rewrite Hno. reflexivity.
  - intros d k v Hfirst. unfold add_header_line.
    assert (E : contains COLON_SP (k ++ COLON_SP ++ v) = true).
    { apply contains_true. exists (length k), k, v. auto. }
    rewrite E, _split_on_find_app by assumption. reflexivity.
Qed.

Lemma header_line_without_separator_ignored_witness :
  (exists p,
     BodyPart_init (blit "A: 1" ++ CRLF ++ blit "junk" ++ CRLFCRLF ++ blit "x")
                   UTF8 = OK p /\
     _store (headers p) = [(blit "a", (blit "A", blit "1"))]) /\
  add_header_line [] (blit "junk") = [] /\
  add_header_line [] (blit "A: 1: 2") = [(blit "A", blit "1: 2")].
Proof.
  destruct (header_line_without_separator_ignored
              (blit "A: 1" ++ CRLF ++ blit "junk" ++ CRLFCRLF ++ blit "x") UTF8)
    as [[p [Hp Hh]] [Hskip Hcut]].
  - exists 10. apply index_occurs. reflexivity.
  - split; [|split].
    + exists p. split; [exact Hp|]. rewrite Hh. reflexivity.
    + apply Hskip. intros m. apply index_None_occurs. reflexivity.
    + apply (Hcut [] (blit "A") (blit "1: 2")).
      intros m. apply index_first. reflexivity.
Defined.

(* ================================================================== *)
(** * [MultipartDecoder]: the fragments of a body                      *)
(* ================================================================== *)

Lemma part_separator_eq (b : bytes) : part_separator b = DASH :: DASH :: b ++ CRLF.
Proof. reflexivity. Qed.

Lemma part_separator_not_nil (b : bytes) : part_separator b <> [].
Proof. rewrite part_separator_eq. discriminate. Qed.

Lemma end_marker_eq (b : bytes) :
  end_marker b = CR :: LF :: DASH :: DASH :: b ++ [DASH; DASH].
Proof. reflexivity. Qed.

Lemma kept_true (x : bytes) : kept x = true <-> x <> [] /\ x <> CRLF.
Proof.
  unfold kept. rewrite andb_true_iff, !negb_true_iff, !seq_eqb_neq. tauto.
Qed.

(** A parse that succeeds gives one part for each retained fragment. *)
Lemma _parse_body_length (content b : bytes) (enc : str) (ps : list BodyPart) :
  _parse_body content (Some b) enc = OK ps ->
  length ps = length (filter kept (split (part_separator b) content)).
Proof. apply mapM_length. Qed.

(** C9. A fragment of the split that is exactly CR LF is dropped like an
    empty one: the result of the parse is made of the parts of the
    fragments before it and of those after it, so the fragment gives no
    [BodyPart] and raises nothing. *)
Theorem lone_crlf_fragment_dropped (content b : bytes) (enc : str)
  (l1 l2 : list bytes) (x : bytes) :
  split (part_separator b) content = l1 ++ x :: l2 ->
  x = [] \/ x = CRLF ->
  _parse_body content (Some b) enc =
  (ps1 <- mapM (body_part_of b enc) (filter kept l1) ;;
   ps2 <- mapM (body_part_of b enc) (filter kept l2) ;;
   OK (ps1 ++ ps2)).
Proof.
  intros Hs Hx. unfold _parse_body. rewrite Hs, filter_app. simpl.
  assert (E : kept x = false) by (destruct Hx; subst; reflexivity).
  rewrite E. apply mapM_app.
Qed.

Lemma lone_crlf_fragment_dropped_witness :
  _parse_body (framed (blit "B") [[]; CRLF ++ blit "abc"]) (Some (blit "B")) UTF8 =
  OK [{| content := blit "abc"; headers := {| _store := [] |};
         encoding := UTF8 |}].
Proof.
  rewrite (lone_crlf_fragment_dropped
             (framed (blit "B") [[]; CRLF ++ blit "abc"]) (blit "B") UTF8
             [[]] [CRLF ++ blit "abc" ++ CRLF] CRLF).
  - reflexivity.
  - reflexivity.
  - right. reflexivity.
Defined.

(** C6. A single part whose content holds the bytes of the separator line
    is split in two: the parse of its framing, closing line included,
    gives more than one part and none of them has the content that was
    framed. *)
Theorem boundary_collision_missplits :
  exists (b original : bytes) (ps : list BodyPart),
    contains (part_separator b) original = true /\
    _parse_body (framed b [CRLF ++ original] ++ closing_line b) (Some b) UTF8
      = OK ps /\
    1 < length ps /\
    Forall (fun p => content p <> original) ps.
Proof.
  exists (blit "B"),
         (blit "x" ++ CRLF ++ blit "--B" ++ CRLF ++ CRLF ++ blit "y").
  eexists. split; [reflexivity|]. split; [vm_compute; reflexivity|].
  split; [simpl; lia|].
  repeat constructor; simpl; discriminate.
Qed.

(** The part built from a fragment does not depend on the last two bytes
    of the fragment. *)
Lemma body_part_of_last_two (b : bytes) (enc : str) (x : bytes) (y1 y2 : byte) :
  body_part_of b enc (x ++ [y1; y2]) =
  BodyPart_init (_fix_last_part x (end_marker b)) enc.
Proof. unfold body_part_of. rewrite slice_to_m2_app. reflexivity. Qed.

(** A payload whose one retained fragment ends in the bytes [XY] is not
    rejected: the two bytes are removed and the rest is parsed (against
    C7 as stated). *)
Lemma non_crlf_fragment_truncated :
  filter kept (split (part_separator (blit "B"))
                     (part_separator (blit "B") ++ CRLF ++ blit "abcXY")) =
    [CRLF ++ blit "abcXY"] /\
  _parse_body (part_separator (blit "B") ++ CRLF ++ blit "abcXY")
              (Some (blit "B")) UTF8 =
    OK [{| content := blit "abc"; headers := {| _store := [] |};
           encoding := UTF8 |}].
Proof. split; reflexivity. Qed.

(** C7, amended. The decoder never looks at the last two bytes of a
    retained fragment: a fragment ending in any two bytes builds the part
    of the same fragment ending in CR LF, and two bodies whose retained
    fragments agree once the last two bytes of each are removed parse to
    the same result. *)
Theorem last_two_bytes_never_checked (b : bytes) (enc : str) :
  (forall x y1 y2,
     body_part_of b enc (x ++ [y1; y2]) = body_part_of b enc (x ++ CRLF)) /\
  (forall c1 c2,
     map (fun x => slice_to x (-2))
         (filter kept (split (part_separator b) c1)) =
     map (fun x => slice_to x (-2))
         (filter kept (split (part_separator b) c2)) ->
     _parse_body c1 (Some b) enc = _parse_body c2 (Some b) enc).
Proof.
  split.
  - intros x y1 y2. unfold CRLF. rewrite !body_part_of_last_two. reflexivity.
  - intros c1 c2 E. unfold _parse_body.
    assert (Hm : forall l,
               mapM (body_part_of b enc) l =
               mapM (fun y => BodyPart_init (_fix_last_part y (end_marker b)) enc)
                    (map (fun x => slice_to x (-2)) l))
      by (intros l; rewrite mapM_map; reflexivity).
    rewrite !Hm, E. reflexivity.
Qed.

Lemma last_two_bytes_never_checked_witness :
  _parse_body (part_separator (blit "B") ++ CRLF ++ blit "abcXY")
              (Some (blit "B")) UTF8 =
  _parse_body (part_separator (blit "B") ++ CRLF ++ blit "abc" ++ CRLF)
              (Some (blit "B")) UTF8.
Proof.
  apply (last_two_bytes_never_checked (blit "B") UTF8). reflexivity.
Defined.

(* ================================================================== *)
(** * [MultipartDecoder]: the content type and the failures            *)
(* ================================================================== *)

Lemma hd_split {A : Type} `{Eqb A} (sep s : list A) :
  sep <> [] -> hd [] (split sep s) = text_before sep s.
Proof.
  intros Hsep. rewrite split_eq by assumption. unfold text_before.
  destruct (index sep s); reflexivity.
Qed.

Lemma mimetype_top_level (ct : str) :
  hd [] (split (slit "/") (hd [] (ct_info ct))) = top_level_type ct.
Proof.
  unfold ct_info, top_level_type.
  rewrite hd_split by discriminate. f_equal.
  rewrite <- (hd_split (slit ";") ct) by discriminate.
  destruct (split (slit ";") ct); reflexivity.
Qed.

(** An item [key=value] whose key holds no [=] is cut into [key] and
    [value]. *)
Lemma _split_on_find_key_value (item key value : str) :
  key_value item key value -> _split_on_find item (slit "=") = (key, value).
Proof.
  intros [-> Hkey]. apply _split_on_find_app.
  intros m Hm. destruct (le_lt_dec (length key) m) as [|Hlt]; [assumption|].
  exfalso. apply (Hkey m). apply occurs_app_inv with (slit "=" ++ value).
  - exact Hm.
  - simpl. lia.
Qed.

(** What [BodyPart] receives is a prefix of the fragment of the split. *)
Lemma trimmed_prefix (x marker : bytes) :
  exists r, x = _fix_last_part (slice_to x (-2)) marker ++ r.
Proof.
  unfold _fix_last_part.
  destruct (contains marker (slice_to x (-2))).
  - destruct (index marker (slice_to x (-2))) as [n|] eqn:E.
    + rewrite (find_index _ _ _ E), slice_to_nat, slice_to_m2.
      exists (skipn n (firstn (length x - 2) x) ++ skipn (length x - 2) x).
      rewrite app_assoc, !firstn_skipn. reflexivity.
    + unfold find. rewrite E. unfold slice_to at 1.
      exists (skipn (clamp (length (slice_to x (-2))) (-1)) (slice_to x (-2))
              ++ skipn (length x - 2) x).
      rewrite app_assoc, firstn_skipn, slice_to_m2, firstn_skipn.
      reflexivity.
  - exists (skipn (length x - 2) x).
    rewrite slice_to_m2, firstn_skipn. reflexivity.
Qed.

(** A fragment that is no proper part stays so once trimmed. *)
Lemma improper_once_trimmed (x marker : bytes) :
  (forall m, ~ occurs CRLFCRLF x m) -> (forall t, x <> CRLF ++ t) ->
  (forall m, ~ occurs CRLFCRLF (_fix_last_part (slice_to x (-2)) marker) m) /\
  (forall t, _fix_last_part (slice_to x (-2)) marker <> CRLF ++ t).
Proof.
  intros H1 H2. destruct (trimmed_prefix x marker) as [r Hr]. split.
  - intros m Hm. apply (H1 m). rewrite Hr. apply occurs_app_l. exact Hm.
  - intros t Ht. apply (H2 (t ++ r)). rewrite Hr at 1. rewrite Ht.
    rewrite <- app_assoc. reflexivity.
Qed.

Section DecoderFacts.
Variable encode_with : str -> str -> result bytes.

Lemma scan_attributes_cons (item : str) (rest : list str) (enc : str)
  (b0 : option bytes) :
  scan_attributes encode_with (item :: rest) enc b0 =
  if seq_eqb (str_lower (fst (_split_on_find item (slit "="))))
             (slit "boundary")
  then b <- encode_with (strip (fun c => mem c [DQUOTE])
                               (snd (_split_on_find item (slit "=")))) enc ;;
       scan_attributes encode_with rest enc (Some b)
  else scan_attributes encode_with rest enc b0.
Proof.
  cbn [scan_attributes]. destruct (_split_on_find item (slit "=")).
  reflexivity.
Qed.

Lemma scan_attributes_app (l1 l2 : list str) (enc : str) (b0 : option bytes) :
  scan_attributes encode_with (l1 ++ l2) enc b0 =
  (b1 <- scan_attributes encode_with l1 enc b0 ;;
   scan_attributes encode_with l2 enc b1).
Proof.
  revert b0; induction l1 as [|item l1 IH]; intros b0; [reflexivity|].
  rewrite <- app_comm_cons, !scan_attributes_cons.
  destruct (seq_eqb _ (slit "boundary")); [|apply IH].
  destruct (encode_with _ enc); [apply IH | reflexivity].
Qed.

Lemma scan_attributes_other_keys (l : list str) (enc : str) (b0 : option bytes) :
  Forall (fun item => exists k v,
            key_value item k v /\ str_lower k <> slit "boundary") l ->
  scan_attributes encode_with l enc b0 = OK b0.
Proof.
  induction 1 as [|item l (k & v & Hkv & Hk) _ IH]; [reflexivity|].
  rewrite scan_attributes_cons, (_split_on_find_key_value _ _ _ Hkv).
  apply seq_eqb_neq in Hk. cbn [fst snd]. rewrite Hk. exact IH.
Qed.

(** C3. A content type whose first [;]-separated token has a top-level
    type other than [multipart] makes the construction of the decoder fail
    with [NonMultipartContentTypeException]. *)
Theorem non_multipart_content_type_rejected (content : bytes) (ct enc : str) :
  top_level_type ct <> slit "multipart" ->
  MultipartDecoder_init encode_with content ct enc =
  Raise NonMultipartContentTypeException.
Proof.
  intros Hne. unfold MultipartDecoder_init, _find_boundary.
  rewrite mimetype_top_level.
  apply seq_eqb_neq in Hne. rewrite Hne. reflexivity.
Qed.

(** C2. When a retained fragment neither contains CR LF CR LF nor begins
    with CR LF, be it the fragment as split or the fragment as trimmed for
    [BodyPart], the construction of the decoder fails with
    [ImproperBodyPartContentException]: the result is the exception and no
    decoder, so no list of parts, is returned. *)
Theorem improper_fragment_aborts (content : bytes) (ct enc : str)
  (b x f : bytes) :
  _find_boundary encode_with ct enc = OK (Some b) ->
  In x (split (part_separator b) content) ->
  x <> [] -> x <> CRLF ->
  f = x \/ f = _fix_last_part (slice_to x (-2)) (end_marker b) ->
  (forall m, ~ occurs CRLFCRLF f m) ->
  (forall t, f <> CRLF ++ t) ->
  MultipartDecoder_init encode_with content ct enc =
    Raise ImproperBodyPartContentException /\
  (forall d, MultipartDecoder_init encode_with content ct enc <> OK d).
Proof.
  intros Hb Hin Hx1 Hx2 Hf H1 H2.
  assert (Ht : (forall m, ~ occurs CRLFCRLF
                   (_fix_last_part (slice_to x (-2)) (end_marker b)) m) /\
               (forall t, _fix_last_part (slice_to x (-2)) (end_marker b)
                          <> CRLF ++ t)).
  { destruct Hf as [-> | ->]; [|auto].
    apply improper_once_trimmed; assumption. }
  destruct Ht as [H1' H2'].
  assert (E : MultipartDecoder_init encode_with content ct enc =
              Raise ImproperBodyPartContentException).
  { unfold MultipartDecoder_init. rewrite Hb. cbn [bind _parse_body].
    rewrite (mapM_raise_in (body_part_of b enc)
               ImproperBodyPartContentException _ x); [reflexivity| | |].
    - intros z e'. apply BodyPart_init_raise.
    - apply filter_In. split; [assumption|]. apply kept_true. auto.
    - apply BodyPart_init_improper; assumption. }
  split; [exact E|]. intros d. rewrite E. discriminate.
Qed.

(** C5, amended. In a multipart content type, let an attribute
    [key=value] have a key equal to [boundary] under case folding, let the
    scan of the items before it raise nothing, and let every item after it
    be a [key=value] attribute with another key.  Then the boundary of the
    decoder is [value] without its leading and trailing double quotes,
    encoded by [encode_with] with the charset of the decoder. *)
Theorem boundary_of_last_attribute (ct enc : str) (pre post : list str)
  (key value : str) :
  top_level_type ct = slit "multipart" ->
  tl (ct_info ct) = pre ++ (key ++ slit "=" ++ value) :: post ->
  (forall m, ~ occurs (slit "=") key m) ->
  str_lower key = slit "boundary" ->
  (exists b0, scan_attributes encode_with pre enc None = OK b0) ->
  Forall (fun item => exists k v,
            key_value item k v /\ str_lower k <> slit "boundary") post ->
  _find_boundary encode_with ct enc =
    (bs <- encode_with (strip (fun c => mem c [DQUOTE]) value) enc ;;
     OK (Some bs)) /\
  (forall content d,
     MultipartDecoder_init encode_with content ct enc = OK d ->
     exists bs,
       encode_with (strip (fun c => mem c [DQUOTE]) value) enc = OK bs /\
       boundary d = Some bs).
Proof.
  intros Htop Hitems Hkey Hlow [b0 Hpre] Hpost.
  assert (E : _find_boundary encode_with ct enc =
              (bs <- encode_with (strip (fun c => mem c [DQUOTE]) value) enc ;;
               OK (Some bs))).
  { unfold _find_boundary. rewrite mimetype_top_level, Htop, seq_eqb_refl.
    cbn [negb]. rewrite Hitems, scan_attributes_app, Hpre.
    cbn [bind]. rewrite scan_attributes_cons.
    rewrite (_split_on_find_key_value _ key value)
      by (split; [reflexivity | assumption]).
    cbn [fst snd]. rewrite Hlow, seq_eqb_refl.
    destruct (encode_with _ enc) as [bs|e]; cbn [bind]; [|reflexivity].
    apply scan_attributes_other_keys. assumption. }
  split; [exact E|].
  intros content d. unfold MultipartDecoder_init. rewrite E.
  destruct (encode_with _ enc) as [bs|e]; cbn [bind]; [|discriminate].
  destruct (_parse_body content (Some bs) enc) as [ps|e]; cbn [bind];
    [|discriminate].
  intros [= <-]. exists bs. auto.
Qed.

End DecoderFacts.

Lemma non_multipart_content_type_rejected_witness :
  MultipartDecoder_init encode_with_model [] (slit "application/json") UTF8 =
  Raise NonMultipartContentTypeException.
Proof.
  apply (non_multipart_content_type_rejected encode_with_model
           [] (slit "application/json") UTF8).
  vm_compute. discriminate.
Defined.

Lemma improper_fragment_aborts_witness :
  MultipartDecoder_init encode_with_model
    (framed (blit "B") [blit "abc"]) (slit "multipart/form-data; boundary=B")
    UTF8 = Raise ImproperBodyPartContentException.
Proof.
  apply (improper_fragment_aborts encode_with_model
           (framed (blit "B") [blit "abc"])
           (slit "multipart/form-data; boundary=B") UTF8
           (blit "B") (blit "abc" ++ CRLF) (blit "abc" ++ CRLF)).
  - reflexivity.
  - vm_compute. auto.
  - discriminate.
  - discriminate.
  - left. reflexivity.
  - intros m. apply index_None_occurs. reflexivity.
  - discriminate.
Defined.

(** Of two attributes [boundary], the later one sets the boundary of the
    decoder (against C5 as stated: the value of the first is not used). *)
Lemma first_boundary_attribute_overridden :
  tl (ct_info (slit "multipart/form-data; boundary=abc; boundary=xyz")) =
    [slit "boundary=abc"; slit "boundary=xyz"] /\
  encode_with_model (slit "abc") UTF8 = OK (blit "abc") /\
  _find_boundary encode_with_model
    (slit "multipart/form-data; boundary=abc; boundary=xyz") UTF8 =
    OK (Some (blit "xyz")).
Proof. repeat split. Qed.

Lemma boundary_of_last_attribute_witness :
  _find_boundary encode_with_model
    (slit "multipart/form-data; charset=x; BOUNDARY=" ++ [DQUOTE] ++ slit "abc"
       ++ [DQUOTE] ++ slit "; a=b") UTF8 =
  OK (Some (blit "abc")).
Proof.
  apply (boundary_of_last_attribute encode_with_model
           (slit "multipart/form-data; charset=x; BOUNDARY=" ++ [DQUOTE]
              ++ slit "abc" ++ [DQUOTE] ++ slit "; a=b") UTF8
           [slit "charset=x"] [slit "a=b"]
           (slit "BOUNDARY") ([DQUOTE] ++ slit "abc" ++ [DQUOTE])).
  - reflexivity.
  - reflexivity.
  - intros m. apply index_None_occurs. reflexivity.
  - reflexivity.
  - eexists. reflexivity.
  - constructor; [|constructor].
    exists (slit "a"), (slit "b"). split; [split|].
    + reflexivity.
    + intros m. apply index_None_occurs. reflexivity.
    + discriminate.
Defined.

(* ================================================================== *)
(** * [MultipartDecoder]: the closing line                             *)
(* ================================================================== *)

Lemma app_inj_length_r {A : Type} (x y x' y' : list A) :
  x ++ y = x' ++ y' -> length y = length y' -> x = x' /\ y = y'.
Proof.
  intros E Hlen. apply app_eq_app in E.
  destruct E as [l [[E1 E2] | [E1 E2]]].
  - assert (l = []).
    { apply (f_equal (@length A)) in E2. rewrite length_app in E2.
      destruct l; [reflexivity | simpl in E2; lia]. }
    subst l. rewrite app_nil_r in E1. auto.
  - assert (l = []).
    { apply (f_equal (@length A)) in E2. rewrite length_app in E2.
      destruct l; [reflexivity | simpl in E2; lia]. }
    subst l. rewrite app_nil_r in E1. auto.
Qed.

Lemma last_two {A : Type} (l : list A) :
  2 <= length l -> exists l0 y1 y2, l = l0 ++ [y1; y2].
Proof.
  intros Hl. destruct (exists_last (l := l)) as (l1 & y2 & ->).
  { intros ->. simpl in Hl. lia. }
  rewrite length_app in Hl. simpl in Hl.
  destruct (exists_last (l := l1)) as (l0 & y1 & ->).
  { intros ->. simpl in Hl. lia. }
  exists l0, y1, y2. rewrite <- app_assoc. reflexivity.
Qed.

(** A sequence that commutes with two dashes is made of dashes. *)
Lemma commutes_with_dashes (b : bytes) :
  [DASH; DASH] ++ b = b ++ [DASH; DASH] -> Forall (eq DASH) b.
Proof.
  induction b as [|x b IH]; intros E; [constructor|].
  simpl in E. injection E as Hx E. subst x.
  constructor; [reflexivity|]. apply IH. exact E.
Qed.

Lemma not_only_dashes (b : bytes) :
  (exists c, In c b /\ c <> DASH) -> [DASH; DASH] ++ b <> b ++ [DASH; DASH].
Proof.
  intros (c & Hin & Hc) E. apply commutes_with_dashes in E.
  rewrite Forall_forall in E. apply Hc. symmetry. exact (E c Hin).
Qed.

Lemma closing_line_eq (b : bytes) :
  closing_line b = ([DASH; DASH] ++ b ++ [DASH; DASH]) ++ CRLF.
Proof. unfold closing_line. rewrite <- !app_assoc. reflexivity. Qed.

Lemma LF_not_in_dashed (b : bytes) (tail : bytes) :
  ~ In LF b -> ~ In LF tail -> ~ In LF ([DASH; DASH] ++ b ++ tail).
Proof.
  intros Hb Ht Hin. simpl in Hin.
  destruct Hin as [Hd | [Hd | Hin]]; try discriminate.
  apply in_app_or in Hin. tauto.
Qed.

(** For a boundary without LF that is not made of dashes alone, no
    occurrence of the separator reaches into the closing line. *)
Lemma separator_not_in_closing_line (b s : bytes) :
  ~ In LF b -> (exists c, In c b /\ c <> DASH) ->
  forall m, occurs (part_separator b) ((s ++ CRLF) ++ closing_line b) m ->
            m + length (part_separator b) <= length (s ++ CRLF).
Proof.
  intros HLF Hnd m (a & r & E & Ha).
  destruct (le_lt_dec (m + length (part_separator b)) (length (s ++ CRLF)))
    as [|Hgt]; [assumption|]. exfalso.
  assert (Hsep : part_separator b = ([DASH; DASH] ++ b ++ [CR]) ++ [LF])
    by (rewrite part_separator_eq; simpl; rewrite <- app_assoc; reflexivity).
  assert (Hcl : closing_line b = ([DASH; DASH] ++ b ++ [DASH; DASH; CR]) ++ [LF])
    by (unfold closing_line; simpl; rewrite <- app_assoc; reflexivity).
  assert (Hno : ~ In LF ([DASH; DASH] ++ b ++ [DASH; DASH; CR])).
  { apply LF_not_in_dashed; [assumption|]. simpl.
    intros [H|[H|[H|[]]]]; discriminate. }
  destruct r as [|x r' _] using rev_ind.
  - (* the occurrence ends the payload: the boundary commutes with dashes *)
    rewrite app_nil_r, Hcl, Hsep, !app_assoc in E.
    apply app_inj_tail in E. destruct E as [E _].
    change [DASH; DASH; CR] with ([DASH; DASH] ++ [CR]) in E.
    rewrite app_assoc in E. apply app_inj_tail in E. destruct E as [E _].
    rewrite <- (app_assoc _ b), <- (app_assoc a) in E.
    apply app_inj_length_r in E.
    + destruct E as [_ E]. symmetry in E. revert E.
      apply not_only_dashes. assumption.
    + rewrite !length_app. simpl. lia.
  - (* the occurrence ends earlier: its LF falls before that of the line *)
    rewrite Hcl, !app_assoc in E. apply app_inj_tail in E.
    destruct E as [E _]. rewrite <- !app_assoc in E.
    rewrite (app_assoc a), (app_assoc s) in E.
    apply app_eq_app in E. destruct E as [l [[E1 E2] | [E1 E2]]].
    + apply (f_equal (@length byte)) in E1.
      rewrite !length_app in E1. rewrite length_app in Hgt. lia.
    + destruct (exists_last (l := l)) as (l' & y & ->).
      { intros ->. apply (f_equal (@length byte)) in E1.
        rewrite app_nil_r, !length_app in E1. rewrite length_app in Hgt. lia. }
      rewrite Hsep, !app_assoc in E1. apply app_inj_tail in E1.
      destruct E1 as [_ <-].
      apply Hno. rewrite E2. apply in_or_app. left.
      apply in_or_app. right. left. reflexivity.
Qed.

(** For a boundary without LF the end marker does not overlap itself: an
    occurrence in [l0 ++ end_marker b] that starts inside [l0] ends inside
    [l0]. *)
Lemma end_marker_no_overlap (b l0 : bytes) (p : nat) :
  ~ In LF b ->
  occurs (end_marker b) (l0 ++ end_marker b) p -> p < length l0 ->
  p + length (end_marker b) <= length l0.
Proof.
  intros HLF (a & r & E & Ha) Hp.
  destruct (le_lt_dec (p + length (end_marker b)) (length l0)) as [|Hgt];
    [assumption|]. exfalso.
  assert (Hno : ~ In LF ([DASH; DASH] ++ b ++ [DASH; DASH])).
  { apply LF_not_in_dashed; [assumption|]. simpl.
    intros [H|[H|[]]]; discriminate. }
  apply app_eq_app in E. destruct E as [w [[E1 E2] | [E1 E2]]].
  2:{ apply (f_equal (@length byte)) in E1. rewrite length_app in E1. lia. }
  assert (Hw : length l0 = p + length w)
    by (rewrite E1, length_app; lia).
  symmetry in E2. apply app_eq_app in E2.
  destruct E2 as [u [[E3 E4] | [E3 E4]]].
  { apply (f_equal (@length byte)) in E3. rewrite length_app in E3. lia. }
  (* [u] is at once a proper prefix and a proper suffix of the marker *)
  rewrite end_marker_eq in E3, E4.
  destruct u as [|u0 u'].
  { apply (f_equal (@length byte)) in E3.
    rewrite app_nil_r, <- end_marker_eq in E3. lia. }
  destruct w as [|w0 w']; [simpl in Hw; lia|].
  simpl in E3, E4. injection E4 as <- E4. injection E3 as <- E3.
  destruct w' as [|w1 w'']; [discriminate E3|].
  simpl in E3. injection E3 as <- E3.
  destruct u' as [|u1 u''].
  - (* the marker would end in CR *)
    change (DASH :: DASH :: b ++ [DASH; DASH])
      with ([DASH; DASH] ++ b ++ [DASH; DASH]) in E3.
    replace ([DASH; DASH] ++ b ++ [DASH; DASH])
      with (([DASH; DASH] ++ b ++ [DASH]) ++ [DASH]) in E3
      by (simpl; rewrite <- app_assoc; reflexivity).
    apply app_inj_tail in E3. destruct E3 as [_ E3]. discriminate E3.
  - simpl in E4. injection E4 as <- E4.
    apply Hno. change ([DASH; DASH] ++ b ++ [DASH; DASH])
      with (DASH :: DASH :: b ++ [DASH; DASH]).
    rewrite E3. apply in_or_app. right. right. left. reflexivity.
Qed.

(** Cutting at the end marker gives the same part with or without a
    marker appended. *)
Lemma _fix_last_part_app_marker (b l0 : bytes) :
  ~ In LF b ->
  _fix_last_part (l0 ++ end_marker b) (end_marker b) =
  _fix_last_part l0 (end_marker b).
Proof.
  intros HLF. unfold _fix_last_part.
  assert (Hend : occurs (end_marker b) (l0 ++ end_marker b) (length l0)).
  { exists l0, []. rewrite app_nil_r. auto. }
  assert (Hin : forall p, occurs (end_marker b) (l0 ++ end_marker b) p ->
                          p < length l0 -> occurs (end_marker b) l0 p).
  { intros p Hp Hlt. apply occurs_app_inv with (end_marker b); [assumption|].
    apply end_marker_no_overlap; assumption. }
  assert (Hc : contains (end_marker b) (l0 ++ end_marker b) = true)
    by (apply contains_true; eauto).
  rewrite Hc. destruct (index (end_marker b) l0) as [q|] eqn:Eq.
  - assert (Hc0 : contains (end_marker b) l0 = true)
      by (apply contains_index; eauto).
    pose proof (occurs_bound _ _ _ (index_occurs _ _ _ Eq)) as Hb.
    assert (Eq' : index (end_marker b) (l0 ++ end_marker b) = Some q).
    { apply index_Some. split.
      - apply occurs_app_l. apply index_occurs. assumption.
      - intros p Hp. destruct (le_lt_dec (length l0) p) as [|Hlt]; [lia|].
        apply (index_first _ _ _ _ Eq). auto. }
    rewrite Hc0, (find_index _ _ _ Eq), (find_index _ _ _ Eq'), !slice_to_nat.
    rewrite firstn_app. replace (q - length l0) with 0 by lia.
    simpl. apply app_nil_r.
  - assert (Hc0 : contains (end_marker b) l0 = false)
      by (unfold contains; rewrite Eq; reflexivity).
    assert (Eq' : index (end_marker b) (l0 ++ end_marker b) = Some (length l0)).
    { apply index_Some. split; [assumption|].
      intros p Hp. destruct (le_lt_dec (length l0) p) as [|Hlt]; [lia|].
      exfalso. apply (index_None_occurs _ _ p Eq). auto. }
    rewrite Hc0, (find_index _ _ _ Eq'), slice_to_nat.
    rewrite firstn_app, Nat.sub_diag, firstn_all. simpl. apply app_nil_r.
Qed.

(** A last fragment of fewer than two bytes with the closing line after
    it is no proper part. *)
Lemma short_last_fragment (b l : bytes) (enc : str) :
  ~ In LF b -> length l < 2 ->
  body_part_of b enc (l ++ closing_line b) =
  Raise ImproperBodyPartContentException.
Proof.
  intros HLF Hl. rewrite closing_line_eq, app_assoc. unfold CRLF.
  rewrite body_part_of_last_two.
  assert (Hno : ~ In LF ([DASH; DASH] ++ b ++ [DASH; DASH])).
  { apply LF_not_in_dashed; [assumption|]. simpl.
    intros [H|[H|[]]]; discriminate. }
  assert (Hc : contains (end_marker b) (l ++ [DASH; DASH] ++ b ++ [DASH; DASH])
               = false).
  { apply contains_false. intros m Hm. apply occurs_bound in Hm.
    rewrite end_marker_eq in Hm. simpl in Hm.
    rewrite !length_app in Hm. simpl in Hm. rewrite length_app in Hm.
    simpl in Hm. lia. }
  unfold _fix_last_part. rewrite Hc. apply BodyPart_init_improper.
  - intros m (a & r & E & _).
    destruct l as [|c [|c' l']]; [| |simpl in Hl; lia].
    + apply Hno. simpl in E. 
      change ([DASH; DASH] ++ b ++ [DASH; DASH])
        with (DASH :: DASH :: b ++ [DASH; DASH]).
      rewrite E. apply in_or_app. right. right. left. reflexivity.
    + destruct a as [|a0 a']; [discriminate E|].
      simpl in E. injection E as _ E.
      apply Hno.
      change ([DASH; DASH] ++ b ++ [DASH; DASH])
        with (DASH :: DASH :: b ++ [DASH; DASH]).
      rewrite E. apply in_or_app. right. right. left. reflexivity.
  - intros t E. destruct l as [|c [|c' l']]; [| |simpl in Hl; lia];
      discriminate E.
Qed.

(** The last fragment alone: what it gives with the closing line after it
    it gives without. *)
Lemma last_fragment_without_closing_line (b Q a l : bytes) (enc : str)
  (qs : list BodyPart) :
  ~ In LF b -> Q ++ CRLF = a ++ l ->
  mapM (body_part_of b enc) (filter kept [l ++ closing_line b]) = OK qs ->
  mapM (body_part_of b enc) (filter kept [l]) = OK qs.
Proof.
  intros HLF Hsuffix.
  assert (Hk : kept (l ++ closing_line b) = true).
  { apply kept_true.
    split; intros E; apply (f_equal (@length byte)) in E;
      rewrite closing_line_eq, !length_app in E; simpl in E; lia. }
  cbn [filter]. rewrite Hk. cbn [mapM].
  destruct (le_lt_dec 2 (length l)) as [Hlen|Hlen].
  2:{ rewrite short_last_fragment by assumption. discriminate. }
  destruct (last_two l Hlen) as (l0 & y1 & y2 & ->).
  rewrite app_assoc in Hsuffix. apply app_inj_length_r in Hsuffix;
    [|reflexivity].
  destruct Hsuffix as [_ Hy]. injection Hy as <- <-.
  assert (E : body_part_of b enc ((l0 ++ [CR; LF]) ++ closing_line b) =
              BodyPart_init (_fix_last_part l0 (end_marker b)) enc).
  { replace ((l0 ++ [CR; LF]) ++ closing_line b)
      with ((l0 ++ end_marker b) ++ [CR; LF]).
    - rewrite body_part_of_last_two, _fix_last_part_app_marker by assumption.
      reflexivity.
    - unfold closing_line. rewrite end_marker_eq, <- !app_assoc. simpl.
      rewrite <- !app_assoc. reflexivity. }
  rewrite E. destruct l0 as [|c l0'].
  - vm_compute. discriminate.
  - assert (Hk0 : kept ((c :: l0') ++ [CR; LF]) = true).
    { apply kept_true. split; [discriminate|]. intros E0.
      apply (f_equal (@length byte)) in E0. rewrite length_app in E0.
      simpl in E0. lia. }
    rewrite Hk0. cbn [mapM]. rewrite body_part_of_last_two. auto.
Qed.

(** A boundary made of one dash: the closing line holds the separator, and
    the part gains a CR LF when the closing line is there (against C1 as
    stated). *)
Lemma dash_boundary_closing_line_changes_parts :
  _parse_body (framed (blit "-") [CRLF ++ blit "abc"] ++ closing_line (blit "-"))
              (Some (blit "-")) UTF8 =
    OK [{| content := blit "abc" ++ CRLF; headers := {| _store := [] |};
           encoding := UTF8 |}] /\
  _parse_body (framed (blit "-") [CRLF ++ blit "abc"])
              (Some (blit "-")) UTF8 =
    OK [{| content := blit "abc"; headers := {| _store := [] |};
           encoding := UTF8 |}].
Proof. split; reflexivity. Qed.

(** The same with a boundary that holds line breaks: the closing line
    then makes a part of its own. *)
Lemma line_break_boundary_closing_line_adds_part :
  _parse_body (([DASH; DASH] ++ CRLFCRLF) ++ CRLF ++ closing_line CRLFCRLF)
              (Some CRLFCRLF) UTF8 =
    OK [{| content := [DASH; DASH]; headers := {| _store := [] |};
           encoding := UTF8 |}] /\
  _parse_body (([DASH; DASH] ++ CRLFCRLF) ++ CRLF) (Some CRLFCRLF) UTF8 = OK [].
Proof. split; reflexivity. Qed.

(** A closing marker that is not followed by CR LF is not recognised: the
    two bytes removed from the fragment are its last two dashes, and the
    rest of the marker stays in the content. *)
Lemma closing_marker_without_line_break :
  _parse_body (framed (blit "B") [CRLF ++ blit "abc"] ++ blit "--B--")
              (Some (blit "B")) UTF8 =
    OK [{| content := blit "abc" ++ CRLF ++ blit "--B";
           headers := {| _store := [] |}; encoding := UTF8 |}].
Proof. reflexivity. Qed.

(** C1, amended. Let the boundary hold no LF and not be made of dashes
    alone, and let a body end in CR LF followed by the closing line
    [--boundary-- CR LF].  If the body parses, the body without its closing
    line parses to the same parts, in the same order. *)
Theorem closing_line_optional (b Q : bytes) (enc : str) (ps : list BodyPart) :
  ~ In LF b -> (exists c, In c b /\ c <> DASH) ->
  _parse_body ((Q ++ CRLF) ++ closing_line b) (Some b) enc = OK ps ->
  _parse_body (Q ++ CRLF) (Some b) enc = OK ps.
Proof.
  intros HLF Hnd. unfold _parse_body.
  destruct (split_app_tail (part_separator b) (closing_line b)
              (part_separator_not_nil b) (Q ++ CRLF)
              (separator_not_in_closing_line b Q HLF Hnd))
    as (init & l & a & E1 & E2 & E3).
  rewrite E1, E2, !filter_app, !mapM_app.
  destruct (mapM (body_part_of b enc) (filter kept init)) as [ps1|e];
    cbn [bind]; [|trivial].
  destruct (mapM (body_part_of b enc) (filter kept [l ++ closing_line b]))
    as [qs|e] eqn:El; cbn [bind]; [|discriminate].
  rewrite (last_fragment_without_closing_line b Q a l enc qs HLF E3 El).
  trivial.
Qed.

Lemma closing_line_optional_witness :
  _parse_body (framed (blit "B") [blit "A: 1" ++ CRLFCRLF ++ blit "abc"])
              (Some (blit "B")) UTF8 =
  OK [{| content := blit "abc";
         headers := {| _store := [(blit "a", (blit "A", blit "1"))] |};
         encoding := UTF8 |}].
Proof.
  apply (closing_line_optional (blit "B")
           (part_separator (blit "B") ++ blit "A: 1" ++ CRLFCRLF ++ blit "abc")
           UTF8).
  - simpl. intros [H|[]]. discriminate H.
  - exists "B"%byte. split; [simpl; auto | discriminate].
  - reflexivity.
Defined.

(* ================================================================== *)
(** * [_split_on_find] and [_fix_last_part] on their own               *)
(* ================================================================== *)

Section CutFacts.
Context {A : Type} `{Eqb A}.
Implicit Types content bound part marker : list A.

Lemma occurs_decompose bound content n :
  occurs bound content n ->
  content = firstn n content ++ bound ++ skipn (n + length bound) content.
Proof.
  intros (a & b & -> & <-).
  rewrite firstn_app, Nat.sub_diag, firstn_all, app_nil_r.
  rewrite skipn_app, skipn_all2 by lia.
  replace (length a + length bound - length a) with (length bound) by lia.
  rewrite skipn_app, skipn_all, Nat.sub_diag. reflexivity.
Qed.

Lemma occurs_firstn bound content n m :
  occurs bound (firstn n content) m -> occurs bound content m.
Proof.
  intros Hm. rewrite <- (firstn_skipn n content). apply occurs_app_l. exact Hm.
Qed.

(** Before its first occurrence in [content], [bound] does not occur. *)
Lemma no_occurrence_before_first bound content n :
  bound <> [] -> index bound content = Some n ->
  forall m, ~ occurs bound (firstn n content) m.
Proof.
  intros Hne E m Hm.
  pose proof (occurs_bound _ _ _ Hm) as Hb. rewrite length_firstn in Hb.
  assert (0 < length bound) by (destruct bound; [congruence | simpl; lia]).
  pose proof (index_first _ _ _ _ E (occurs_firstn _ _ _ _ Hm)). lia.
Qed.

(** The result of [_split_on_find] when [bound] is missing: [find] answers
    [-1], which the two slices read as an index from the end. *)
Lemma _split_on_find_missing content bound :
  index bound content = None ->
  _split_on_find content bound =
  (removelast content, skipn (length bound - 1) content).
Proof.
  intros E. unfold _split_on_find, find. rewrite E. f_equal.
  - rewrite removelast_firstn_len. unfold slice_to, clamp.
    change (-1 <? 0)%Z with true. cbv iota. f_equal. lia.
  - assert (0 < length bound).
    { destruct bound; [|simpl; lia]. destruct content; discriminate E. }
    replace (-1 + Z.of_nat (length bound))%Z
      with (Z.of_nat (length bound - 1)) by lia.
    apply slice_from_nat.
Qed.

(** X1. When [bound] occurs in [content], [_split_on_find] cuts at its
    first occurrence: the two pieces with [bound] between them give
    [content] back, and no occurrence of [bound] starts before the end of
    the first piece. *)
Theorem _split_on_find_reassembles content bound :
  (exists m, occurs bound content m) ->
  fst (_split_on_find content bound) ++ bound
    ++ snd (_split_on_find content bound) = content /\
  (forall m, occurs bound content m ->
             length (fst (_split_on_find content bound)) <= m).
Proof.
  intros Hc. apply contains_true, contains_index in Hc. destruct Hc as [n E].
  rewrite (_split_on_find_index _ _ _ E). cbn [fst snd].
  pose proof (index_occurs _ _ _ E) as Ho. split.
  - symmetry. apply occurs_decompose. exact Ho.
  - intros m Hm. rewrite length_firstn.
    pose proof (index_first _ _ _ _ E Hm). lia.
Qed.

(** X2. When [bound] does not occur in [content], [_split_on_find] raises
    nothing: its first result is [content] without its last element and
    its second is [content] from index [len(bound) - 1] on, so for a
    one-element [bound] the second result is all of [content]. *)
Theorem _split_on_find_without_bound content bound :
  (forall m, ~ occurs bound content m) ->
  _split_on_find content bound =
    (removelast content, skipn (length bound - 1) content) /\
  (length bound = 1 -> snd (_split_on_find content bound) = content).
Proof.
  intros Hno. apply index_None in Hno.
  rewrite (_split_on_find_missing _ _ Hno). split; [reflexivity|].
  intros ->. reflexivity.
Qed.

Lemma _fix_last_part_generic_prefix part marker n :
  index marker part = Some n ->
  slice_to part (find marker part) = firstn n part.
Proof. intros E. rewrite (find_index _ _ _ E). apply slice_to_nat. Qed.

End CutFacts.

Lemma _fix_last_part_found (part marker : bytes) (n : nat) :
  index marker part = Some n -> _fix_last_part part marker = firstn n part.
Proof.
  intros E. unfold _fix_last_part, contains. rewrite E.
  apply _fix_last_part_generic_prefix. exact E.
Qed.

Lemma _fix_last_part_not_found (part marker : bytes) :
  index marker part = None -> _fix_last_part part marker = part.
Proof. intros E. unfold _fix_last_part, contains. rewrite E. reflexivity. Qed.

Lemma _fix_last_part_clean (part marker : bytes) :
  marker <> [] -> forall m, ~ occurs marker (_fix_last_part part marker) m.
Proof.
  intros Hne m. destruct (index marker part) as [n|] eqn:E.
  - rewrite (_fix_last_part_found _ _ _ E).
    apply no_occurrence_before_first; assumption.
  - rewrite (_fix_last_part_not_found _ _ E). apply index_None. exact E.
Qed.

(** X3. [_fix_last_part] returns a prefix of the part in which the marker
    does not occur, returns the part itself when the marker does not occur
    in it, and gives the same result when applied again. *)
Theorem _fix_last_part_removes_marker (part marker : bytes) :
  marker <> [] ->
  (exists rest, part = _fix_last_part part marker ++ rest) /\
  (forall m, ~ occurs marker (_fix_last_part part marker) m) /\
  ((forall m, ~ occurs marker part m) -> _fix_last_part part marker = part) /\
  _fix_last_part (_fix_last_part part marker) marker =
    _fix_last_part part marker.
Proof.
  intros Hne. split; [|split; [|split]].
  - destruct (index marker part) as [n|] eqn:E.
    + rewrite (_fix_last_part_found _ _ _ E). exists (skipn n part).
      symmetry. apply firstn_skipn.
    + rewrite (_fix_last_part_not_found _ _ E). exists []. symmetry.
      apply app_nil_r.
  - apply _fix_last_part_clean. assumption.
  - intros Hno. apply _fix_last_part_not_found, index_None. exact Hno.
  - apply _fix_last_part_not_found, index_None, _fix_last_part_clean.
    assumption.
Qed.

Lemma _split_on_find_reassembles_witness :
  fst (_split_on_find (slit "a=b=c") (slit "=")) ++ slit "="
    ++ snd (_split_on_find (slit "a=b=c") (slit "=")) = slit "a=b=c" /\
  (forall m, occurs (slit "=") (slit "a=b=c") m ->
             length (fst (_split_on_find (slit "a=b=c") (slit "="))) <= m).
Proof.
  apply (@_split_on_find_reassembles ascii _ (slit "a=b=c") (slit "=")).
  exists 1. apply index_occurs. reflexivity.
Defined.

Lemma _split_on_find_without_bound_witness :
  _split_on_find (slit "boundary7") (slit "=") =
  (slit "boundary", slit "boundary7").
Proof.
  apply (@_split_on_find_without_bound ascii _ (slit "boundary7") (slit "=")).
  intros m. apply index_None_occurs. reflexivity.
Defined.

Lemma _fix_last_part_removes_marker_witness :
  (exists rest,
     blit "abc" ++ end_marker (blit "B") ++ blit "xyz" =
     _fix_last_part (blit "abc" ++ end_marker (blit "B") ++ blit "xyz")
                    (end_marker (blit "B")) ++ rest) /\
  (forall m,
     ~ occurs (end_marker (blit "B"))
         (_fix_last_part (blit "abc" ++ end_marker (blit "B") ++ blit "xyz")
                         (end_marker (blit "B"))) m) /\
  ((forall m, ~ occurs (end_marker (blit "B"))
                  (blit "abc" ++ end_marker (blit "B") ++ blit "xyz") m) ->
   _fix_last_part (blit "abc" ++ end_marker (blit "B") ++ blit "xyz")
                  (end_marker (blit "B")) =
   blit "abc" ++ end_marker (blit "B") ++ blit "xyz") /\
  _fix_last_part
    (_fix_last_part (blit "abc" ++ end_marker (blit "B") ++ blit "xyz")
                    (end_marker (blit "B")))
    (end_marker (blit "B")) =
  _fix_last_part (blit "abc" ++ end_marker (blit "B") ++ blit "xyz")
                 (end_marker (blit "B")).
Proof.
  apply (_fix_last_part_removes_marker
           (blit "abc" ++ end_marker (blit "B") ++ blit "xyz")
           (end_marker (blit "B"))).
  discriminate.
Defined.

(* ================================================================== *)
(** * [split] at a displayed separator, and the pieces of a split       *)
(* ================================================================== *)

Section SplitFacts.
Context {A : Type} `{Eqb A}.
Implicit Types s sep : list A.

(** When no occurrence of [sep] straddles the end of [s1], the split of
    [s1 ++ sep ++ s2] is the split of [s1] followed by that of [s2]. *)
Lemma split_app_sep sep s2 : sep <> [] ->
  forall s1,
  (forall m, occurs sep (s1 ++ sep ++ s2) m -> m < length s1 ->
             m + length sep <= length s1) ->
  split sep (s1 ++ sep ++ s2) = split sep s1 ++ split sep s2.
Proof.
  intros Hsep s1.
  induction s1 as [s1 IH] using (induction_ltof1 _ (@length A)).
  unfold ltof in IH. intros Hin.
  assert (Hpos : 0 < length sep) by (destruct sep; [congruence | simpl; lia]).
  rewrite (split_eq sep s1), (split_eq sep (s1 ++ sep ++ s2)) by assumption.
  destruct (index sep s1) as [p|] eqn:E.
  - pose proof (index_occurs _ _ _ E) as Ho.
    pose proof (occurs_bound _ _ _ Ho) as Hb.
    assert (E' : index sep (s1 ++ sep ++ s2) = Some p).
    { apply index_Some. split; [apply occurs_app_l; assumption|].
      intros m Hm. destruct (le_lt_dec p m) as [|Hlt]; [assumption|].
      apply (index_first _ _ _ _ E).
      apply occurs_app_inv with (sep ++ s2); [assumption|].
      apply Hin; [assumption | lia]. }
    rewrite E', firstn_app, skipn_app.
    replace (p - length s1) with 0 by lia.
    replace (p + length sep - length s1) with 0 by lia.
    cbn [firstn skipn]. rewrite app_nil_r. cbn [app]. f_equal.
    apply IH.
    + rewrite length_skipn. lia.
    + intros m Hm Hlt. rewrite length_skipn in *.
      apply (occurs_app_r _ (firstn (p + length sep) s1)) in Hm.
      rewrite app_assoc, firstn_skipn in Hm.
      rewrite length_firstn in Hm.
      apply Hin in Hm; lia.
  - assert (E' : index sep (s1 ++ sep ++ s2) = Some (length s1)).
    { apply index_Some. split; [exists s1, s2; auto|].
      intros m Hm. destruct (le_lt_dec (length s1) m) as [|Hlt]; [assumption|].
      exfalso. apply (index_None_occurs _ _ m E).
      apply occurs_app_inv with (sep ++ s2); [assumption|].
      apply Hin; assumption. }
    rewrite E', firstn_app, Nat.sub_diag, firstn_all. cbn [firstn].
    rewrite app_nil_r, skipn_app, skipn_all2 by lia.
    replace (length s1 + length sep - length s1) with (length sep) by lia.
    rewrite skipn_app, skipn_all, Nat.sub_diag. reflexivity.
Qed.

(** No piece of a split holds the separator. *)
Lemma split_pieces_no_sep sep : sep <> [] ->
  forall s x, In x (split sep s) -> forall m, ~ occurs sep x m.
Proof.
  intros Hsep s.
  induction s as [s IH] using (induction_ltof1 _ (@length A)).
  unfold ltof in IH. intros x.
  assert (Hpos : 0 < length sep) by (destruct sep; [congruence | simpl; lia]).
  rewrite split_eq by assumption.
  destruct (index sep s) as [p|] eqn:E.
  - intros [<- | Hin].
    + apply no_occurrence_before_first; assumption.
    + revert Hin. apply IH. rewrite length_skipn.
      pose proof (occurs_bound _ _ _ (index_occurs _ _ _ E)). lia.
  - intros [<- | []]. apply index_None. exact E.
Qed.

End SplitFacts.

Lemma mapM_In {X Y : Type} (f : X -> result Y) (l : list X) (ys : list Y) :
  mapM f l = OK ys -> forall y, In y ys -> exists x, In x l /\ f x = OK y.
Proof.
  revert ys; induction l as [|x l IH]; simpl; intros ys.
  - intros [= <-] y [].
  - destruct (f x) as [y0|e] eqn:Ex; simpl; [|discriminate].
    destruct (mapM f l) as [zs|e]; simpl; [|discriminate].
    intros [= <-] y [<- | Hin].
    + exists x. auto.
    + destruct (IH zs eq_refl y Hin) as (x' & Hx' & Hf). exists x'. auto.
Qed.

Lemma mapM_raise_inv {X Y : Type} (f : X -> result Y) (l : list X)
  (e : exception) :
  mapM f l = Raise e -> exists x, In x l /\ f x = Raise e.
Proof.
  induction l as [|x l IH]; simpl; [discriminate|].
  destruct (f x) as [y|e'] eqn:Ex; simpl.
  - destruct (mapM f l) as [zs|e']; simpl; [discriminate|].
    intros [= ->]. destruct (IH eq_refl) as (x' & Hx' & Hf). exists x'. auto.
  - intros [= ->]. exists x. auto.
Qed.

(** The content of a part is the end of the fragment it was built from. *)
Lemma BodyPart_content_suffix (f : bytes) (enc : str) (p : BodyPart) :
  BodyPart_init f enc = OK p -> exists a, f = a ++ content p.
Proof.
  unfold BodyPart_init. destruct (contains CRLFCRLF f) eqn:Ec.
  - apply contains_index in Ec. destruct Ec as [n En].
    rewrite (_split_on_find_index _ _ _ En). intros [= <-]. simpl.
    exists (firstn (n + length CRLFCRLF) f). symmetry. apply firstn_skipn.
  - destruct (seq_eqb CRLF (slice_to f 2)); [|discriminate].
    intros [= <-]. simpl. change 2%Z with (Z.of_nat 2).
    rewrite slice_from_nat. exists (firstn 2 f). symmetry. apply firstn_skipn.
Qed.

Lemma BodyPart_init_raise_inv (f : bytes) (enc : str) (e : exception) :
  BodyPart_init f enc = Raise e ->
  (forall m, ~ occurs CRLFCRLF f m) /\ (forall t, f <> CRLF ++ t).
Proof.
  unfold BodyPart_init. destruct (contains CRLFCRLF f) eqn:Ec.
  - destruct (_split_on_find f CRLFCRLF). discriminate.
  - destruct (seq_eqb CRLF (slice_to f 2)) eqn:El; [discriminate|].
    intros _. split; [apply contains_false; exact Ec|].
    intros t Ht. assert (seq_eqb CRLF (slice_to f 2) = true)
      by (apply leading_crlf; eauto). congruence.
Qed.

(** X8. In a parse that succeeds, the content of no part holds the
    separator line [--boundary CR LF] or the end marker
    [CR LF --boundary--]. *)
Theorem part_content_free_of_framing (content0 b : bytes) (enc : str)
  (ps : list BodyPart) (p : BodyPart) :
  _parse_body content0 (Some b) enc = OK ps -> In p ps ->
  (forall m, ~ occurs (part_separator b) (content p) m) /\
  (forall m, ~ occurs (end_marker b) (content p) m).
Proof.
  unfold _parse_body. intros Hps Hp.
  destruct (mapM_In _ _ _ Hps p Hp) as (x & Hx & Hbp).
  apply filter_In in Hx. destruct Hx as [Hx _].
  unfold body_part_of in Hbp.
  destruct (BodyPart_content_suffix _ _ _ Hbp) as [a Ha].
  destruct (trimmed_prefix x (end_marker b)) as [r Hr].
  split; intros m Hm.
  - apply (split_pieces_no_sep (part_separator b) (part_separator_not_nil b)
             content0 x Hx (length a + m)).
    rewrite Hr. apply occurs_app_l. rewrite Ha. apply occurs_app_r. exact Hm.
  - apply (_fix_last_part_clean (slice_to x (-2)) (end_marker b))
      with (m := length a + m).
    + rewrite end_marker_eq. discriminate.
    + rewrite Ha. apply occurs_app_r. exact Hm.
Qed.

Lemma part_content_free_of_framing_witness :
  (forall m, ~ occurs (part_separator (blit "B")) (blit "abc") m) /\
  (forall m, ~ occurs (end_marker (blit "B")) (blit "abc") m).
Proof.
  apply (part_content_free_of_framing
           (framed (blit "B") [CRLF ++ blit "abc"] ++ closing_line (blit "B"))
           (blit "B") UTF8
           [{| content := blit "abc"; headers := {| _store := [] |};
               encoding := UTF8 |}]
           {| content := blit "abc"; headers := {| _store := [] |};
              encoding := UTF8 |}).
  - reflexivity.
  - left. reflexivity.
Defined.

(** X11. With the boundary set, [_parse_body] raises nothing but
    [ImproperBodyPartContentException], and raises it exactly when some
    retained fragment, once trimmed, neither contains CR LF CR LF nor
    begins with CR LF. *)
Theorem _parse_body_raises_only_improper (content0 b : bytes) (enc : str)
  (e : exception) :
  _parse_body content0 (Some b) enc = Raise e <->
  e = ImproperBodyPartContentException /\
  exists x,
    In x (split (part_separator b) content0) /\ x <> [] /\ x <> CRLF /\
    (forall m, ~ occurs CRLFCRLF
                   (_fix_last_part (slice_to x (-2)) (end_marker b)) m) /\
    (forall t, _fix_last_part (slice_to x (-2)) (end_marker b) <> CRLF ++ t).
Proof.
  unfold _parse_body. split.
  - intros Hr. destruct (mapM_raise_inv _ _ _ Hr) as (x & Hx & Hbp).
    apply filter_In in Hx. destruct Hx as [Hx Hk]. apply kept_true in Hk.
    unfold body_part_of in Hbp. split.
    + exact (BodyPart_init_raise _ _ _ Hbp).
    + exists x. pose proof (BodyPart_init_raise_inv _ _ _ Hbp). tauto.
  - intros [-> (x & Hx & Hx1 & Hx2 & H1 & H2)].
    apply mapM_raise_in with x.
    + intros z e'. apply BodyPart_init_raise.
    + apply filter_In. split; [assumption|]. apply kept_true. auto.
    + apply BodyPart_init_improper; assumption.
Qed.

(** X10. A body in which the separator does not occur is not rejected as
    such: an empty body or a body that is CR LF alone gives no part, and
    any other body is taken whole as the one fragment. *)
Theorem _parse_body_without_separator (content0 b : bytes) (enc : str) :
  (forall m, ~ occurs (part_separator b) content0 m) ->
  (content0 = [] \/ content0 = CRLF ->
   _parse_body content0 (Some b) enc = OK []) /\
  (content0 <> [] -> content0 <> CRLF ->
   _parse_body content0 (Some b) enc =
   (p <- BodyPart_init
           (_fix_last_part (firstn (length content0 - 2) content0)
                           (end_marker b)) enc ;;
    OK [p])).
Proof.
  intros Hno. apply index_None in Hno. unfold _parse_body.
  rewrite split_eq, Hno by apply part_separator_not_nil. split.
  - intros [-> | ->]; reflexivity.
  - intros H1 H2. assert (Hk : kept content0 = true) by (apply kept_true; auto).
    cbn [filter]. rewrite Hk. cbn [mapM]. unfold body_part_of.
    rewrite slice_to_m2.
    destruct (BodyPart_init _ enc); reflexivity.
Qed.

Lemma _parse_body_without_separator_witness :
  _parse_body [] (Some (blit "B")) UTF8 = OK [].
Proof.
  apply (_parse_body_without_separator [] (blit "B") UTF8).
  - intros m. apply index_None_occurs. reflexivity.
  - left. reflexivity.
Defined.

(* ================================================================== *)
(** * [_parse_body] on bodies put together with the separator          *)
(* ================================================================== *)

(** For a boundary without LF the separator does not overlap itself: an
    occurrence in [s1 ++ separator ++ s2] that starts inside [s1] ends
    inside [s1]. *)
Lemma separator_no_overlap (b s1 s2 : bytes) (m : nat) :
  ~ In LF b ->
  occurs (part_separator b) (s1 ++ part_separator b ++ s2) m ->
  m < length s1 -> m + length (part_separator b) <= length s1.
Proof.
  intros HLF (a & r & E & Ha) Hm.
  destruct (le_lt_dec (m + length (part_separator b)) (length s1)) as [|Hgt];
    [assumption|]. exfalso.
  assert (Hsep : part_separator b = ([DASH; DASH] ++ b ++ [CR]) ++ [LF])
    by (rewrite part_separator_eq; simpl; rewrite <- app_assoc; reflexivity).
  assert (Hno : ~ In LF ([DASH; DASH] ++ b ++ [CR])).
  { apply LF_not_in_dashed; [assumption|]. simpl. intros [H|[]]. discriminate. }
  apply app_eq_app in E. destruct E as [w [[E1 E2] | [E1 E2]]].
  2:{ apply (f_equal (@length byte)) in E1. rewrite length_app in E1. lia. }
  assert (Hw : length s1 = m + length w) by (rewrite E1, length_app; lia).
  symmetry in E2. apply app_eq_app in E2.
  destruct E2 as [u [[E3 E4] | [E3 E4]]].
  { apply (f_equal (@length byte)) in E3. rewrite length_app in E3. lia. }
  assert (Hu : length (part_separator b) = length w + length u)
    by (rewrite E3 at 1; apply length_app).
  apply app_eq_app in E4. destruct E4 as [t [[E5 E6] | [E5 E6]]].
  2:{ apply (f_equal (@length byte)) in E5. rewrite length_app in E5. lia. }
  assert (Ht : length (part_separator b) = length u + length t)
    by (rewrite E5 at 1; apply length_app).
  (* [u] ends the separator and, followed by [t], begins it *)
  destruct (exists_last (l := u)) as (u0 & y & ->).
  { intros ->. cbn [length] in Hu. lia. }
  destruct (exists_last (l := t)) as (t0 & z & ->).
  { intros ->. cbn [length] in Ht. lia. }
  rewrite Hsep in E3, E5.
  rewrite (app_assoc w) in E3. apply app_inj_tail in E3.
  destruct E3 as [_ <-].
  rewrite (app_assoc (u0 ++ [LF])) in E5. apply app_inj_tail in E5.
  destruct E5 as [E5 _].
  apply Hno. rewrite E5. apply in_or_app. left. apply in_or_app. right.
  left. reflexivity.
Qed.

Lemma split_at_separator (b s1 s2 : bytes) :
  ~ In LF b ->
  split (part_separator b) (s1 ++ part_separator b ++ s2) =
  split (part_separator b) s1 ++ split (part_separator b) s2.
Proof.
  intros HLF. apply split_app_sep; [apply part_separator_not_nil|].
  intros m. apply separator_no_overlap. assumption.
Qed.

(** X4. For a boundary without LF, the parse of two bodies joined by the
    separator line is the parse of the first followed by the parse of the
    second: the parts of the first, then those of the second, or the first
    exception met. *)
Theorem _parse_body_at_separator (b s1 s2 : bytes) (enc : str) :
  ~ In LF b ->
  _parse_body (s1 ++ part_separator b ++ s2) (Some b) enc =
  (ps1 <- _parse_body s1 (Some b) enc ;;
   ps2 <- _parse_body s2 (Some b) enc ;;
   OK (ps1 ++ ps2)).
Proof.
  intros HLF. unfold _parse_body.
  rewrite split_at_separator, filter_app by assumption. apply mapM_app.
Qed.

Lemma _parse_body_at_separator_witness :
  _parse_body (framed (blit "B") [CRLF ++ blit "x"] ++ part_separator (blit "B")
                 ++ CRLF ++ blit "y" ++ CRLF) (Some (blit "B")) UTF8 =
  (ps1 <- _parse_body (framed (blit "B") [CRLF ++ blit "x"])
                      (Some (blit "B")) UTF8 ;;
   ps2 <- _parse_body (CRLF ++ blit "y" ++ CRLF) (Some (blit "B")) UTF8 ;;
   OK (ps1 ++ ps2)).
Proof.
  apply (_parse_body_at_separator (blit "B")).
  simpl. intros [H|[]]. discriminate H.
Defined.

(** ** Framed fragments *)

Lemma split_separator_head (b z : bytes) :
  ~ In LF b ->
  split (part_separator b) (part_separator b ++ z) =
  [] :: split (part_separator b) z.
Proof.
  intros HLF. apply (split_at_separator b [] z HLF).
Qed.

Lemma split_fragment_then_separator (b f z : bytes) :
  ~ In LF b ->
  (forall m, ~ occurs (part_separator b) (f ++ CRLF) m) ->
  split (part_separator b) ((f ++ CRLF) ++ part_separator b ++ z) =
  (f ++ CRLF) :: split (part_separator b) z.
Proof.
  intros HLF Hno. rewrite split_at_separator by assumption.
  rewrite (split_eq _ (f ++ CRLF)) by apply part_separator_not_nil.
  apply index_None in Hno. rewrite Hno. reflexivity.
Qed.

Lemma framed_cons (b f : bytes) (l : list bytes) (tail : bytes) :
  framed b (f :: l) ++ tail =
  part_separator b ++ (f ++ CRLF) ++ framed b l ++ tail.
Proof.
  unfold framed. cbn [flat_map]. rewrite <- !app_assoc. reflexivity.
Qed.

(** The split of framed fragments: an empty piece before the first
    separator, every fragment but the last with its CR LF, and the last
    with what follows it. *)
Lemma split_framed (b : bytes) (init : list bytes) (fl tail : bytes) :
  ~ In LF b ->
  Forall (fun f => forall m, ~ occurs (part_separator b) (f ++ CRLF) m) init ->
  (forall m, ~ occurs (part_separator b) (fl ++ CRLF ++ tail) m) ->
  split (part_separator b) (framed b (init ++ [fl]) ++ tail) =
  [] :: map (fun f => f ++ CRLF) init ++ [fl ++ CRLF ++ tail].
Proof.
  intros HLF Hinit Hlast. induction Hinit as [|f init Hf _ IH].
  - cbn [app map]. rewrite framed_cons, split_separator_head by assumption.
    f_equal. unfold framed. cbn [flat_map app]. rewrite <- app_assoc.
    rewrite split_eq by apply part_separator_not_nil.
    apply index_None in Hlast. rewrite Hlast. reflexivity.
  - rewrite <- app_comm_cons, framed_cons, split_separator_head by assumption.
    f_equal. cbn [map app]. revert IH.
    destruct (init ++ [fl]) as [|g l] eqn:Egl.
    { destruct init; discriminate Egl. }
    rewrite framed_cons, split_separator_head by assumption. intros [= IH].
    rewrite split_fragment_then_separator by assumption.
    f_equal. exact IH.
Qed.

Lemma body_part_of_framed (b f : bytes) (enc : str) :
  (forall m, ~ occurs (end_marker b) f m) ->
  body_part_of b enc (f ++ CRLF) = BodyPart_init f enc.
Proof.
  intros Hno. unfold CRLF. rewrite body_part_of_last_two.
  rewrite _fix_last_part_not_found by (apply index_None; exact Hno).
  reflexivity.
Qed.

Lemma body_part_of_closed (b f : bytes) (enc : str) :
  ~ In LF b -> (forall m, ~ occurs (end_marker b) f m) ->
  body_part_of b enc (f ++ CRLF ++ closing_line b) = BodyPart_init f enc.
Proof.
  intros HLF Hno.
  replace (f ++ CRLF ++ closing_line b) with ((f ++ end_marker b) ++ [CR; LF]).
  - rewrite body_part_of_last_two, _fix_last_part_app_marker by assumption.
    rewrite _fix_last_part_not_found by (apply index_None; exact Hno).
    reflexivity.
  - unfold closing_line. rewrite end_marker_eq, <- !app_assoc. simpl.
    rewrite <- !app_assoc. reflexivity.
Qed.

Lemma mapM_framed_pieces (b : bytes) (enc : str) (init rest : list bytes) :
  Forall (fun f => f <> [] /\ forall m, ~ occurs (end_marker b) f m) init ->
  mapM (body_part_of b enc)
       (filter kept (map (fun f => f ++ CRLF) init ++ rest)) =
  (ps1 <- mapM (fun f => BodyPart_init f enc) init ;;
   ps2 <- mapM (body_part_of b enc) (filter kept rest) ;;
   OK (ps1 ++ ps2)).
Proof.
  induction 1 as [|f init [Hne Hno] _ IH].
  - cbn [map app mapM bind]. destruct (mapM _ (filter kept rest)); reflexivity.
  - cbn [map app filter].
    assert (Hk : kept (f ++ CRLF) = true).
    { apply kept_true. split.
      - destruct f; discriminate.
      - intros E. apply (f_equal (@length byte)) in E.
        rewrite length_app in E. simpl in E.
        destruct f; [congruence | simpl in E; lia]. }
    rewrite Hk. cbn [mapM]. rewrite body_part_of_framed by assumption.
    rewrite IH. destruct (BodyPart_init f enc); cbn [bind]; [|reflexivity].
    destruct (mapM _ init); cbn [bind]; [|reflexivity].
    destruct (mapM _ (filter kept rest)); reflexivity.
Qed.

Lemma parse_framed_with_tail (b : bytes) (enc : str) (frags : list bytes)
  (tail : bytes) :
  ~ In LF b -> frags <> [] ->
  Forall (fun f => f <> [] /\
                   (forall m, ~ occurs (part_separator b) (f ++ CRLF) m) /\
                   (forall m, ~ occurs (end_marker b) f m)) frags ->
  (forall f, (forall m, ~ occurs (part_separator b) (f ++ CRLF) m) ->
             forall m, ~ occurs (part_separator b) (f ++ CRLF ++ tail) m) ->
  (forall f, (forall m, ~ occurs (end_marker b) f m) ->
             body_part_of b enc (f ++ CRLF ++ tail) = BodyPart_init f enc) ->
  _parse_body (framed b frags ++ tail) (Some b) enc =
  mapM (fun f => BodyPart_init f enc) frags.
Proof.
  intros HLF Hne Hall Hsep Hbp.
  destruct (exists_last Hne) as (init & fl & ->).
  apply Forall_app in Hall. destruct Hall as [Hinit Hfl].
  apply Forall_inv in Hfl. destruct Hfl as (Hfl1 & Hfl2 & Hfl3).
  unfold _parse_body. rewrite split_framed; [|assumption| |auto].
  2:{ eapply Forall_impl; [|exact Hinit]. cbv beta. tauto. }
  cbn [filter]. change (kept []) with false. cbv iota.
  rewrite mapM_framed_pieces.
  2:{ eapply Forall_impl; [|exact Hinit]. cbv beta. tauto. }
  rewrite mapM_app.
  assert (Hk : kept (fl ++ CRLF ++ tail) = true).
  { apply kept_true. split.
    - destruct fl; discriminate.
    - intros E. apply (f_equal (@length byte)) in E.
      rewrite !length_app in E. simpl in E.
      destruct fl; [congruence | simpl in E; lia]. }
  cbn [filter]. rewrite Hk. cbn [mapM]. rewrite Hbp by assumption.
  reflexivity.
Qed.

(** X5. Let the boundary hold no LF and not be made of dashes alone, and
    let every fragment of a non-empty list be non-empty, hold no end
    marker, and not let the separator occur in the fragment followed by
    CR LF.  Then the body that frames the fragments parses, with its
    closing line or without it, to what [BodyPart] makes of each fragment,
    in order. *)
Theorem _parse_body_of_framed (b : bytes) (enc : str) (frags : list bytes) :
  ~ In LF b -> (exists c, In c b /\ c <> DASH) -> frags <> [] ->
  Forall (fun f => f <> [] /\
                   (forall m, ~ occurs (part_separator b) (f ++ CRLF) m) /\
                   (forall m, ~ occurs (end_marker b) f m)) frags ->
  _parse_body (framed b frags ++ closing_line b) (Some b) enc =
    mapM (fun f => BodyPart_init f enc) frags /\
  _parse_body (framed b frags) (Some b) enc =
    mapM (fun f => BodyPart_init f enc) frags.
Proof.
  intros HLF Hnd Hne Hall. split.
  - apply parse_framed_with_tail; try assumption.
    + intros f Hf m Hm. rewrite app_assoc in Hm.
      apply (Hf m). apply occurs_app_inv with (closing_line b); [exact Hm|].
      apply separator_not_in_closing_line; assumption.
    + intros f Hf. apply body_part_of_closed; assumption.
  - rewrite <- (app_nil_r (framed b frags)).
    apply parse_framed_with_tail; try assumption.
    + intros f Hf m. rewrite app_nil_r. apply Hf.
    + intros f Hf. rewrite app_nil_r. apply body_part_of_framed. assumption.
Qed.

Lemma _parse_body_of_framed_witness :
  _parse_body (framed (blit "B")
                 [CRLF ++ blit "x"; blit "A: 1" ++ CRLFCRLF ++ blit "y"]
               ++ closing_line (blit "B")) (Some (blit "B")) UTF8 =
    mapM (fun f => BodyPart_init f UTF8)
         [CRLF ++ blit "x"; blit "A: 1" ++ CRLFCRLF ++ blit "y"] /\
  _parse_body (framed (blit "B")
                 [CRLF ++ blit "x"; blit "A: 1" ++ CRLFCRLF ++ blit "y"])
              (Some (blit "B")) UTF8 =
    mapM (fun f => BodyPart_init f UTF8)
         [CRLF ++ blit "x"; blit "A: 1" ++ CRLFCRLF ++ blit "y"].
Proof.
  apply (_parse_body_of_framed (blit "B") UTF8
           [CRLF ++ blit "x"; blit "A: 1" ++ CRLFCRLF ++ blit "y"]).
  - simpl. intros [H|[]]. discriminate H.
  - exists "B"%byte. split; [simpl; auto | discriminate].
  - discriminate.
  - repeat constructor; try discriminate;
      intros m; apply index_None_occurs; reflexivity.
Defined.

(* ================================================================== *)
(** * The header map of a part                                         *)
(* ================================================================== *)

Lemma dict_set_In {V : Type} (d : list (bytes * V)) (k : bytes) (v : V)
  (a : bytes) (x : V) :
  In (a, x) (dict_set d k v) -> (a = k /\ x = v) \/ In (a, x) d.
Proof.
  induction d as [|[k' v'] d IH]; simpl.
  - intros [[= <- <-] | []]. auto.
  - destruct (seq_eqb k' k) eqn:E.
    + apply seq_eqb_eq in E. subst k'. intros [[= <- <-] | Hin]; auto.
    + intros [Heq | Hin]; [auto|]. destruct (IH Hin); auto.
Qed.

Lemma dict_set_In_same {V : Type} (d : list (bytes * V)) (k : bytes) (v : V) :
  In (k, v) (dict_set d k v).
Proof.
  induction d as [|[k' v'] d IH]; simpl; [auto|].
  destruct (seq_eqb k' k) eqn:E.
  - apply seq_eqb_eq in E. subst k'. left. reflexivity.
  - right. exact IH.
Qed.

Lemma dict_set_In_other {V : Type} (d : list (bytes * V)) (k : bytes) (v : V)
  (a : bytes) (x : V) :
  In (a, x) d -> a <> k -> In (a, x) (dict_set d k v).
Proof.
  intros Hin Hne. induction d as [|[k' v'] d IH]; simpl; [contradiction|].
  destruct (seq_eqb k' k) eqn:E.
  - apply seq_eqb_eq in E. subst k'. destruct Hin as [[= -> ->] | Hin].
    + contradiction.
    + right. exact Hin.
  - destruct Hin as [Heq | Hin]; [left; exact Heq | right; auto].
Qed.

Lemma dict_get_set_same {V : Type} (d : list (bytes * V)) (k : bytes) (v : V) :
  dict_get (dict_set d k v) k = Some v.
Proof.
  induction d as [|[k' v'] d IH]; simpl.
  - rewrite seq_eqb_refl. reflexivity.
  - destruct (seq_eqb k' k) eqn:E; simpl; rewrite E; auto.
Qed.

Lemma dict_get_set_other {V : Type} (d : list (bytes * V)) (k k0 : bytes)
  (v : V) :
  k <> k0 -> dict_get (dict_set d k v) k0 = dict_get d k0.
Proof.
  intros Hne. induction d as [|[k' v'] d IH]; simpl.
  - apply seq_eqb_neq in Hne. rewrite Hne. reflexivity.
  - destruct (seq_eqb k' k) eqn:E; simpl.
    + apply seq_eqb_eq in E. subst k'.
      apply seq_eqb_neq in Hne. rewrite Hne. reflexivity.
    + rewrite IH. reflexivity.
Qed.

Lemma cid_get_set_same (c : CaseInsensitiveDict) (k v key : bytes) :
  bytes_lower key = bytes_lower k ->
  cid_getitem (cid_setitem c k v) key = Some v.
Proof.
  intros E. unfold cid_getitem, cid_setitem. simpl.
  rewrite E, dict_get_set_same. reflexivity.
Qed.

Lemma cid_get_set_other (c : CaseInsensitiveDict) (k v key : bytes) :
  bytes_lower k <> bytes_lower key ->
  cid_getitem (cid_setitem c k v) key = cid_getitem c key.
Proof.
  intros E. unfold cid_getitem, cid_setitem. simpl.
  rewrite dict_get_set_other by assumption. reflexivity.
Qed.

Section HeaderLookup.
(** The name looked up, and the one item of that name up to case. *)
Variables (key k v : bytes).
Hypothesis Hkey : bytes_lower key = bytes_lower k.

Lemma cid_fold_keeps (d : list (bytes * bytes)) (c : CaseInsensitiveDict) :
  Forall (harmless_to key k v) d -> cid_getitem c key = Some v ->
  cid_getitem (fold_left (fun c kv => cid_setitem c (fst kv) (snd kv)) d c)
              key = Some v.
Proof.
  intros Hd. revert c. induction Hd as [|[a x] d Hax _ IH]; intros c Hc;
    [exact Hc|].
  cbn [fold_left fst snd]. apply IH. destruct Hax as [Hne | [= -> ->]].
  - rewrite cid_get_set_other by exact Hne. exact Hc.
  - apply cid_get_set_same. exact Hkey.
Qed.

Lemma cid_fold_finds (d : list (bytes * bytes)) (c : CaseInsensitiveDict) :
  Forall (harmless_to key k v) d -> In (k, v) d ->
  cid_getitem (fold_left (fun c kv => cid_setitem c (fst kv) (snd kv)) d c)
              key = Some v.
Proof.
  intros Hd. revert c. induction Hd as [|[a x] d Hax Hd IH]; intros c;
    [contradiction|].
  cbn [fold_left fst snd]. intros [[= -> ->] | Hin].
  - apply cid_fold_keeps; [exact Hd|]. apply cid_get_set_same. exact Hkey.
  - apply IH. exact Hin.
Qed.

Lemma cid_fold_misses (d : list (bytes * bytes)) (c : CaseInsensitiveDict) :
  Forall (fun kv => bytes_lower (fst kv) <> bytes_lower key) d ->
  cid_getitem (fold_left (fun c kv => cid_setitem c (fst kv) (snd kv)) d c)
              key = cid_getitem c key.
Proof.
  intros Hd. revert c. induction Hd as [|[a x] d Hax _ IH]; intros c;
    [reflexivity|].
  cbn [fold_left fst snd]. rewrite IH. apply cid_get_set_other. exact Hax.
Qed.

Lemma add_header_line_silent (d : list (bytes * bytes)) (line : bytes)
  (a x : bytes) :
  silent_on key line -> In (a, x) (add_header_line d line) ->
  bytes_lower a <> bytes_lower key \/ In (a, x) d.
Proof.
  unfold add_header_line. intros [Hc | Hn].
  - rewrite Hc. auto.
  - destruct (contains COLON_SP line); [|auto].
    destruct (_split_on_find line COLON_SP) as [hk hv]. cbn [fst] in Hn.
    intros Hin. apply dict_set_In in Hin. destruct Hin as [[-> _] | Hin]; auto.
Qed.

Lemma fold_silent_harmless (lines : list bytes) (d : list (bytes * bytes)) :
  Forall (silent_on key) lines -> Forall (harmless_to key k v) d ->
  Forall (harmless_to key k v) (fold_left add_header_line lines d).
Proof.
  intros Hl. revert d. induction Hl as [|line lines Hs _ IH]; intros d Hd;
    [exact Hd|].
  cbn [fold_left]. apply IH. apply Forall_forall. intros [a x] Hin.
  destruct (add_header_line_silent _ _ _ _ Hs Hin) as [Hne | Hin'].
  - left. exact Hne.
  - rewrite Forall_forall in Hd. exact (Hd _ Hin').
Qed.

Lemma fold_silent_other_names (lines : list bytes) (d : list (bytes * bytes)) :
  Forall (silent_on key) lines ->
  Forall (fun kv => bytes_lower (fst kv) <> bytes_lower key) d ->
  Forall (fun kv => bytes_lower (fst kv) <> bytes_lower key)
         (fold_left add_header_line lines d).
Proof.
  intros Hl. revert d. induction Hl as [|line lines Hs _ IH]; intros d Hd;
    [exact Hd|].
  cbn [fold_left]. apply IH. apply Forall_forall. intros [a x] Hin.
  destruct (add_header_line_silent _ _ _ _ Hs Hin) as [Hne | Hin'].
  - exact Hne.
  - rewrite Forall_forall in Hd. exact (Hd _ Hin').
Qed.

Lemma fold_silent_keeps_item (lines : list bytes) (d : list (bytes * bytes)) :
  Forall (silent_on key) lines -> In (k, v) d ->
  In (k, v) (fold_left add_header_line lines d).
Proof.
  intros Hl. revert d. induction Hl as [|line lines Hs _ IH]; intros d Hd;
    [exact Hd|].
  cbn [fold_left]. apply IH. unfold add_header_line.
  destruct (contains COLON_SP line) eqn:Ec; [|exact Hd].
  destruct Hs as [Hc | Hn]; [congruence|].
  destruct (_split_on_find line COLON_SP) as [hk hv]. cbn [fst] in Hn.
  apply dict_set_In_other; [exact Hd|]. intros ->. apply Hn.
  symmetry. exact Hkey.
Qed.

(** X9. Let one line of a header section be [k], the two bytes [b': '] and
    [v], cut at its first [b': '], and let no other line that holds
    [b': '] have the name [k] up to the case of its ASCII letters.  Then
    looking up any spelling of [k] in the header map gives [v]. *)
Theorem header_lookup_ignores_case (first : bytes)
  (lines1 lines2 : list bytes) :
  split CRLF first = lines1 ++ (k ++ COLON_SP ++ v) :: lines2 ->
  (forall m, occurs COLON_SP (k ++ COLON_SP ++ v) m -> length k <= m) ->
  Forall (silent_on key) (lines1 ++ lines2) ->
  cid_getitem (CaseInsensitiveDict_init (header_dict first)) key = Some v.
Proof.
  intros Hs Hfirst Hsil. apply Forall_app in Hsil. destruct Hsil as [H1 H2].
  assert (Hne : seq_eqb first [] = false).
  { apply seq_eqb_neq. intros ->. destruct lines1 as [|l0 [|l1 lines1]];
      try discriminate Hs.
    cbn in Hs. injection Hs as Hs _. destruct k; discriminate Hs. }
  unfold header_dict, CaseInsensitiveDict_init. rewrite Hne. cbn [negb].
  rewrite Hs, fold_left_app. cbn [fold_left].
  apply cid_fold_finds.
  - apply fold_silent_harmless; [exact H2|].
    apply Forall_forall. intros [a x] Hin. unfold add_header_line in Hin.
    assert (Ec : contains COLON_SP (k ++ COLON_SP ++ v) = true)
      by (apply contains_true; exists (length k), k, v; auto).
    rewrite Ec, _split_on_find_app in Hin by assumption.
    apply dict_set_In in Hin. destruct Hin as [[-> ->] | Hin].
    + right. reflexivity.
    + pose proof (fold_silent_other_names lines1 [] H1 (Forall_nil _)) as Ho.
      rewrite Forall_forall in Ho. left. exact (Ho _ Hin).
  - apply fold_silent_keeps_item; [exact H2|]. unfold add_header_line.
    assert (Ec : contains COLON_SP (k ++ COLON_SP ++ v) = true)
      by (apply contains_true; exists (length k), k, v; auto).
    rewrite Ec, _split_on_find_app by assumption. apply dict_set_In_same.
Qed.

(** X12. When no line of a header section that holds [b': '] has the name
    [key] up to the case of its ASCII letters, the header map has no entry
    for [key]. *)
Theorem header_lookup_missing (first : bytes) :
  Forall (silent_on key) (split CRLF first) ->
  cid_getitem (CaseInsensitiveDict_init (header_dict first)) key = None.
Proof.
  intros Hsil. unfold header_dict, CaseInsensitiveDict_init.
  destruct (seq_eqb first []); cbn [negb]; [reflexivity|].
  rewrite cid_fold_misses; [reflexivity|].
  apply fold_silent_other_names; [exact Hsil | constructor].
Qed.

End HeaderLookup.

Lemma header_lookup_ignores_case_witness :
  cid_getitem
    (CaseInsensitiveDict_init
       (header_dict (blit "Content-Type: text/plain" ++ CRLF ++ blit "X: 1")))
    (blit "content-TYPE") = Some (blit "text/plain").
Proof.
  apply (header_lookup_ignores_case
           (blit "content-TYPE") (blit "Content-Type") (blit "text/plain")
           eq_refl
           (blit "Content-Type: text/plain" ++ CRLF ++ blit "X: 1")
           [] [blit "X: 1"]).
  - reflexivity.
  - intros m. apply index_first. reflexivity.
  - constructor; [|constructor]. right. vm_compute. discriminate.
Defined.

Lemma header_lookup_missing_witness :
  cid_getitem (CaseInsensitiveDict_init (header_dict (blit "X: 1")))
              (blit "content-type") = None.
Proof.
  apply (header_lookup_missing (blit "content-type") (blit "X: 1")).
  constructor; [|constructor]. right. vm_compute. discriminate.
Defined.

(* ================================================================== *)
(** * [_find_boundary]: no boundary, and an item without [=]           *)
(* ================================================================== *)

Section BoundaryFacts.
Variable encode_with : str -> str -> result bytes.

(** X6. For a multipart content type whose items after the first are all
    [key=value] attributes with a key other than [boundary], so also for
    one with no item after the first, the attribute [boundary] is never
    set: building the decoder raises [AttributeError], whatever the body,
    directly or through [from_response]; so does [from_response] on a
    response without a content type. *)
Theorem missing_boundary_raises_AttributeError (content0 : bytes)
  (ct enc : str) :
  top_level_type ct = slit "multipart" ->
  Forall (fun item => exists k v,
            key_value item k v /\ str_lower k <> slit "boundary")
         (tl (ct_info ct)) ->
  _find_boundary encode_with ct enc = OK None /\
  MultipartDecoder_init encode_with content0 ct enc = Raise AttributeError /\
  from_response encode_with content0 (Some ct) enc = Raise AttributeError /\
  from_response encode_with content0 None enc = Raise AttributeError.
Proof.
  intros Htop Hitems.
  assert (E : _find_boundary encode_with ct enc = OK None).
  { unfold _find_boundary. rewrite mimetype_top_level, Htop, seq_eqb_refl.
    cbn [negb]. apply scan_attributes_other_keys. exact Hitems. }
  unfold from_response, MultipartDecoder_init. rewrite E. auto.
Qed.

(** X7. An item without [=] is not passed over: [_split_on_find] gives
    the item without its last character as the key and the whole item as
    the value.  So when that shortened item is [boundary] under case
    folding, the scan of the items before it raises nothing, and every
    item after it is a [key=value] attribute with another key, the
    boundary is the whole item, without its leading and trailing double
    quotes, encoded. *)
Theorem item_without_equals_sets_boundary (ct enc : str)
  (pre post : list str) (item : str) :
  top_level_type ct = slit "multipart" ->
  tl (ct_info ct) = pre ++ item :: post ->
  (forall m, ~ occurs (slit "=") item m) ->
  str_lower (removelast item) = slit "boundary" ->
  (exists b0, scan_attributes encode_with pre enc None = OK b0) ->
  Forall (fun it => exists k v,
            key_value it k v /\ str_lower k <> slit "boundary") post ->
  _find_boundary encode_with ct enc =
  (bs <- encode_with (strip (fun c => mem c [DQUOTE]) item) enc ;;
   OK (Some bs)).
Proof.
  intros Htop Hitems Hno Hlow [b0 Hpre] Hpost.
  unfold _find_boundary. rewrite mimetype_top_level, Htop, seq_eqb_refl.
  cbn [negb]. rewrite Hitems, scan_attributes_app, Hpre.
  cbn [bind]. rewrite scan_attributes_cons.
  apply index_None in Hno. rewrite (_split_on_find_missing _ _ Hno).
  cbn [fst snd length Nat.sub skipn slit list_ascii_of_string].
  rewrite Hlow, seq_eqb_refl.
  destruct (encode_with _ enc) as [bs|e]; cbn [bind]; [|reflexivity].
  apply scan_attributes_other_keys. assumption.
Qed.

End BoundaryFacts.

Lemma missing_boundary_raises_AttributeError_witness :
  _find_boundary encode_with_model (slit "multipart/mixed; charset=utf-8") UTF8
    = OK None /\
  MultipartDecoder_init encode_with_model [] (slit "multipart/mixed; charset=utf-8")
    UTF8 = Raise AttributeError /\
  from_response encode_with_model [] (Some (slit "multipart/mixed; charset=utf-8"))
    UTF8 = Raise AttributeError /\
  from_response encode_with_model [] None UTF8 = Raise AttributeError.
Proof.
  apply (missing_boundary_raises_AttributeError encode_with_model []
           (slit "multipart/mixed; charset=utf-8") UTF8).
  - reflexivity.
  - constructor; [|constructor].
    exists (slit "charset"), (slit "utf-8"). split; [split|].
    + reflexivity.
    + intros m. apply index_None_occurs. reflexivity.
    + discriminate.
Defined.

Lemma item_without_equals_sets_boundary_witness :
  _find_boundary encode_with_model (slit "multipart/mixed; Boundary7") UTF8 =
  (bs <- encode_with_model
           (strip (fun c => mem c [DQUOTE]) (slit "Boundary7")) UTF8 ;;
   OK (Some bs)).
Proof.
  apply (item_without_equals_sets_boundary encode_with_model
           (slit "multipart/mixed; Boundary7") UTF8 [] [] (slit "Boundary7")).
  - reflexivity.
  - reflexivity.
  - intros m. apply index_None_occurs. reflexivity.
  - reflexivity.
  - eexists. reflexivity.
  - constructor.
Defined.

(* ================================================================== *)
(** * The decoder as a whole                                           *)
(* ================================================================== *)

Lemma BodyPart_init_encoding (f : bytes) (enc : str) (p : BodyPart) :
  BodyPart_init f enc = OK p -> encoding p = enc.
Proof.
  unfold BodyPart_init. destruct (contains CRLFCRLF f).
  - destruct (_split_on_find f CRLFCRLF). intros [= <-]. reflexivity.
  - destruct (seq_eqb CRLF (slice_to f 2)); [|discriminate].
    intros [= <-]. reflexivity.
Qed.

Section WholeDecoder.
Variable encode_with : str -> str -> result bytes.

Lemma scan_attributes_raise (items : list str) (enc : str)
  (b0 : option bytes) (e : exception) :
  scan_attributes encode_with items enc b0 = Raise e ->
  exists s, encode_with s enc = Raise e.
Proof.
  revert b0. induction items as [|item items IH]; intros b0; [discriminate|].
  rewrite scan_attributes_cons.
  destruct (seq_eqb _ (slit "boundary")); [|apply IH].
  destruct (encode_with _ enc) as [bs|e'] eqn:Ee; cbn [bind]; [apply IH|].
  intros [= ->]. eauto.
Qed.

(** X13. Building a decoder raises nothing outside four cases: the
    top-level type is not [multipart] and the exception is
    [NonMultipartContentTypeException]; [encode_with] raised the exception
    on some string; the boundary was never set and the exception is
    [AttributeError]; or the boundary was set, some part is improper and
    the exception is [ImproperBodyPartContentException]. *)
Theorem MultipartDecoder_init_exceptions (content0 : bytes) (ct enc : str)
  (e : exception) :
  MultipartDecoder_init encode_with content0 ct enc = Raise e ->
  (top_level_type ct <> slit "multipart" /\
   e = NonMultipartContentTypeException) \/
  (exists s, encode_with s enc = Raise e) \/
  (_find_boundary encode_with ct enc = OK None /\ e = AttributeError) \/
  ((exists b, _find_boundary encode_with ct enc = OK (Some b)) /\
   e = ImproperBodyPartContentException).
Proof.
  unfold MultipartDecoder_init.
  destruct (_find_boundary encode_with ct enc) as [[b|]|e'] eqn:Eb;
    cbn [bind].
  - destruct (_parse_body content0 (Some b) enc) as [ps|e'] eqn:Ep;
      cbn [bind]; [discriminate|].
    intros [= ->]. right. right. right. split; [eauto|].
    unfold _parse_body in Ep.
    destruct (mapM_raise_inv _ _ _ Ep) as (x & _ & Hx).
    exact (BodyPart_init_raise _ _ _ Hx).
  - cbn [_parse_body bind]. intros [= <-]. auto.
  - intros [= ->]. unfold _find_boundary in Eb.
    rewrite mimetype_top_level in Eb.
    destruct (seq_eqb (top_level_type ct) (slit "multipart")) eqn:Et;
      cbn [negb] in Eb.
    + right. left. exact (scan_attributes_raise _ _ _ _ Eb).
    + left. apply seq_eqb_neq in Et. injection Eb as <-. auto.
Qed.

(** X14. A decoder that was built keeps the body, the content type and
    the encoding it was given; its boundary is the one [_find_boundary]
    set; it has one part for each fragment of the split that is neither
    empty nor CR LF; and every part carries the encoding of the decoder. *)
Theorem MultipartDecoder_init_fields (content0 : bytes) (ct enc : str)
  (d : MultipartDecoder) :
  MultipartDecoder_init encode_with content0 ct enc = OK d ->
  md_content d = content0 /\ md_content_type d = ct /\ md_encoding d = enc /\
  exists b,
    _find_boundary encode_with ct enc = OK (Some b) /\
    boundary d = Some b /\
    _parse_body content0 (Some b) enc = OK (parts d) /\
    length (parts d) =
      length (filter kept (split (part_separator b) content0)) /\
    Forall (fun p => encoding p = enc) (parts d).
Proof.
  unfold MultipartDecoder_init.
  destruct (_find_boundary encode_with ct enc) as [[b|]|e'] eqn:Eb;
    cbn [bind]; [| discriminate | discriminate].
  destruct (_parse_body content0 (Some b) enc) as [ps|e'] eqn:Ep;
    cbn [bind]; [|discriminate].
  intros [= <-]. cbn [md_content md_content_type md_encoding parts boundary].
  split; [reflexivity|]. split; [reflexivity|]. split; [reflexivity|].
  exists b. split; [first [reflexivity | assumption]|].
  split; [reflexivity|].
  split; [first [reflexivity | assumption]|]. split.
  - exact (_parse_body_length _ _ _ _ Ep).
  - apply Forall_forall. intros p Hp. unfold _parse_body in Ep.
    destruct (mapM_In _ _ _ Ep p Hp) as (x & _ & Hx).
    exact (BodyPart_init_encoding _ _ _ Hx).
Qed.

End WholeDecoder.

Lemma MultipartDecoder_init_exceptions_witness :
  (top_level_type (slit "text/plain") <> slit "multipart" /\
   NonMultipartContentTypeException = NonMultipartContentTypeException) \/
  (exists s, encode_with_model s UTF8 = Raise NonMultipartContentTypeException) \/
  (_find_boundary encode_with_model (slit "text/plain") UTF8 = OK None /\
   NonMultipartContentTypeException = AttributeError) \/
  ((exists b, _find_boundary encode_with_model (slit "text/plain") UTF8
              = OK (Some b)) /\
   NonMultipartContentTypeException = ImproperBodyPartContentException).
Proof.
  apply (MultipartDecoder_init_exceptions encode_with_model []
           (slit "text/plain") UTF8 NonMultipartContentTypeException).
  reflexivity.
Defined.

Lemma MultipartDecoder_init_fields_witness :
  exists d,
    MultipartDecoder_init encode_with_model
      (framed (blit "B") [CRLF ++ blit "abc"])
      (slit "multipart/form-data; boundary=B") UTF8 = OK d /\
    md_content d = framed (blit "B") [CRLF ++ blit "abc"] /\
    md_encoding d = UTF8 /\
    exists b, boundary d = Some b /\
      Forall (fun p => encoding p = UTF8) (parts d).
Proof.
  eexists. split; [reflexivity|].
  destruct (MultipartDecoder_init_fields encode_with_model
              (framed (blit "B") [CRLF ++ blit "abc"])
              (slit "multipart/form-data; boundary=B") UTF8 _ eq_refl)
    as (H1 & _ & H3 & b & _ & Hb & _ & _ & Hall).
  split; [exact H1|]. split; [exact H3|]. exists b. split; assumption.
Defined.

(** X15. For a boundary without LF and a fragment body [f] that holds no
    end marker, whatever follows the end marker in the fragment is left
    out of the part as long as it is at least two bytes long: the part is
    the one built from [f]. *)
Theorem epilogue_after_end_marker_ignored (b f epilogue : bytes) (enc : str) :
  ~ In LF b -> (forall m, ~ occurs (end_marker b) f m) ->
  2 <= length epilogue ->
  body_part_of b enc (f ++ end_marker b ++ epilogue) = BodyPart_init f enc.
Proof.
  intros HLF Hno Hlen.
  destruct (last_two epilogue Hlen) as (ep & y1 & y2 & ->).
  replace (f ++ end_marker b ++ ep ++ [y1; y2])
    with ((f ++ end_marker b ++ ep) ++ [y1; y2])
    by (rewrite <- !app_assoc; reflexivity).
  rewrite body_part_of_last_two. f_equal.
  assert (E : index (end_marker b) (f ++ end_marker b ++ ep) = Some (length f)).
  { apply index_Some. split; [exists f, ep; auto|].
    intros m Hm. destruct (le_lt_dec (length f) m) as [|Hlt]; [assumption|].
    exfalso. apply (Hno m).
    apply occurs_app_inv with (end_marker b).
    - pose proof (occurs_bound _ _ _ Hm) as Hb.
      apply occurs_app_inv with ep.
      + rewrite <- app_assoc. exact Hm.
      + rewrite length_app. lia.
    - apply end_marker_no_overlap; [assumption| |assumption].
      apply occurs_app_inv with ep.
      + rewrite <- app_assoc. exact Hm.
      + rewrite length_app. lia. }
  rewrite (_fix_last_part_found _ _ _ E).
  rewrite firstn_app, Nat.sub_diag, firstn_all. cbn [firstn]. apply app_nil_r.
Qed.

Lemma epilogue_after_end_marker_ignored_witness :
  body_part_of (blit "B") UTF8
    ((CRLF ++ blit "abc") ++ end_marker (blit "B") ++ CRLF ++ blit "epilogue") =
  BodyPart_init (CRLF ++ blit "abc") UTF8.
Proof.
  apply (epilogue_after_end_marker_ignored (blit "B") (CRLF ++ blit "abc")
           (CRLF ++ blit "epilogue") UTF8).
  - simpl. intros [H|[]]. discriminate H.
  - intros m. apply index_None_occurs. reflexivity.
  - simpl. lia.
Defined.
